(** * autopartial: placeholder-driven partial application

    A shallow embedding of [autopartial.py].  The module defines a
    decorator [autopartial]; calling a decorated function with [_Arg]
    placeholders among its arguments returns a new (again decorated)
    function [new_f] which, once called, looks the placeholders up in its
    own arguments and calls the decorated function.

    Python values are an inductive type; the closures the decorator
    creates ([wrapped] and [new_f]) are defunctionalised into the
    constructors of [callable], each holding its closure cells.  Calls of
    the underlying target are recorded in a history, so that "the target
    is (not) invoked" is a statement about the program. *)

From Stdlib Require Import ZArith.
From stdpp Require Import gmap strings list fin_maps.

Set Warnings "-register-all".

Open Scope Z_scope.

(** ** Values *)

(** A dictionary key: the binding dictionary of [new_f] holds the keyword
    names (strings) and the positions (integers) of one call. *)
Inductive key :=
| KInt (i : Z)
| KStr (s : string).

(** [class _Arg]: a placeholder object; its only field is [index].  The
    module creates placeholders with an integer ([_0_] to [_9_]) or with
    a keyword name ([_kw_]); an [index] of another type is not modelled. *)
Record _Arg := mk_Arg { index : key }.

(** Python objects, as far as the decorator can tell them apart.  A
    [callable] is one of: a function defined elsewhere (the target,
    known by name), the closure [wrapped] returned by [autopartial f],
    or the closure [new_f] with its cells [f], [orig_args] and
    [orig_kwargs]. *)
Inductive value :=
| VNone
| VInt (n : Z)
| VStr (s : string)
| VTuple (vs : list value)
| VList (vs : list value)
| VDict (d : gmap string value)
| VArg (a : _Arg)
| VFun (c : callable)
with callable :=
| Prim (name : string)
| Wrapped (f : callable)
| NewF (f : callable) (orig_args : list value) (orig_kwargs : gmap string value).

#[global] Instance key_eq_dec : EqDecision key.
Proof. solve_decision. Defined.

Definition key_to_sum (k : key) : Z + string :=
  match k with KInt i => inl i | KStr s => inr s end.

Definition sum_to_key (x : Z + string) : key :=
  match x with inl i => KInt i | inr s => KStr s end.

#[global] Instance key_countable : Countable key.
Proof. apply (inj_countable' key_to_sum sum_to_key). by intros []. Defined.

#[global] Instance KStr_inj : Inj (=) (=) KStr.
Proof. by intros s1 s2 [= ->]. Qed.

#[global] Instance KInt_inj : Inj (=) (=) KInt.
Proof. by intros s1 s2 [= ->]. Qed.

(** ** Exceptions and results *)

(** [KeyError k] is what a failed dictionary lookup raises; every other
    exception is a class name with its arguments. *)
Inductive exn :=
| KeyError (k : key)
| Exception (cls : string) (payload : list value).

Inductive result (A : Type) :=
| Return (a : A)
| Raise (e : exn).

Arguments Return {A} a.
Arguments Raise {A} e.

Definition rbind {A B} (r : result A) (k : A → result B) : result B :=
  match r with
  | Return a => k a
  | Raise e => Raise e
  end.

Notation "x <- r ;; k" := (rbind r (fun x => k))
  (at level 100, r at next level, right associativity, only parsing).

(** ** The placeholders *)

(** [isinstance(v, _Arg)] *)
Definition isinstance_Arg (v : value) : bool :=
  match v with VArg _ => true | _ => false end.

(** [_Arg.get_value]: [return args[self.index]], a dictionary lookup. *)
Definition get_value (self : _Arg) (args : gmap key value) : result value :=
  match args !! index self with
  | Some v => Return v
  | None => Raise (KeyError (index self))
  end.

(** [_0_, ..., _9_ = [_Arg(i) for i in range(10)]] *)
Definition _0_ : _Arg := mk_Arg (KInt 0).
Definition _1_ : _Arg := mk_Arg (KInt 1).
Definition _2_ : _Arg := mk_Arg (KInt 2).
Definition _3_ : _Arg := mk_Arg (KInt 3).
Definition _4_ : _Arg := mk_Arg (KInt 4).
Definition _5_ : _Arg := mk_Arg (KInt 5).
Definition _6_ : _Arg := mk_Arg (KInt 6).
Definition _7_ : _Arg := mk_Arg (KInt 7).
Definition _8_ : _Arg := mk_Arg (KInt 8).
Definition _9_ : _Arg := mk_Arg (KInt 9).

(** [_kw_ = lambda s: _Arg(s)] *)
Definition _kw_ (s : string) : _Arg := mk_Arg (KStr s).

(** ** The dictionary and comprehension primitives used by [new_f] *)

(** [enumerate(args)] *)
Definition enumerate {A} (args : list A) : list (Z * A) :=
  imap (fun i x => (Z.of_nat i, x)) args.

(** [kwargs.copy()]: a new dictionary with the same items.  The copy is
    where the keyword dictionary (string keys) becomes a dictionary that
    may also hold integer keys. *)
Definition copy (kwargs : gmap string value) : gmap key value :=
  kmap KStr kwargs.

(** [d.update(items)]: the items are stored one after the other. *)
Definition update (d : gmap key value) (items : list (Z * value)) : gmap key value :=
  foldl (fun acc it => <[KInt it.1 := it.2]> acc) d items.

(** [[g(x) for x in xs]], where [g] may raise. *)
Fixpoint list_comp {A B} (g : A → result B) (xs : list A) : result (list B) :=
  match xs with
  | [] => Return []
  | x :: xs' =>
      y <- g x;;
      ys <- list_comp g xs';;
      Return (y :: ys)
  end.

(** [{k: g(v) for k, v in items}], started from the dictionary [acc]. *)
Fixpoint dict_comp_from {B} (g : value → result B) (acc : gmap string B)
    (items : list (string * value)) : result (gmap string B) :=
  match items with
  | [] => Return acc
  | (k, v) :: items' =>
      y <- g v;;
      dict_comp_from g (<[k := y]> acc) items'
  end.

(** [d.items()] and [d.values()].  Python does not fix the order in
    which a dictionary is traversed; here it is the order of
    [map_to_list].  The order only decides which [KeyError] is raised
    when several lookups of one comprehension fail. *)
Definition items (d : gmap string value) : list (string * value) :=
  map_to_list d.

Definition values (d : gmap string value) : list value :=
  (map_to_list d).*2.

Definition dict_comp {B} (g : value → result B) (d : gmap string value)
    : result (gmap string B) :=
  dict_comp_from g ∅ (items d).

(** ** Calls *)

(** One call of a target: its name and the arguments it received. *)
Definition invocation : Type := string * list value * gmap string value.

(** A computation that may call targets: it reads and extends the
    history of the target calls made so far. *)
Definition M (A : Type) : Type := list invocation → result A * list invocation.

Definition ret {A} (a : A) : M A := fun h => (Return a, h).

Definition lift {A} (r : result A) : M A := fun h => (r, h).

Definition bindM {A B} (m : M A) (k : A → M B) : M B :=
  fun h =>
    match m h with
    | (Return a, h') => k a h'
    | (Raise e, h') => (Raise e, h')
    end.

Notation "x <<- m ;; k" := (bindM m (fun x => k))
  (at level 100, m at next level, right associativity, only parsing).

(** The expression
    [orig.get_value(all_args) if isinstance(orig, _Arg) else orig]. *)
Definition resolve (all_args : gmap key value) (orig : value) : result value :=
  match orig with
  | VArg a => get_value a all_args
  | _ => Return orig
  end.

(** The first two statements of [new_f]:
    [all_args = kwargs.copy(); all_args.update(enumerate(args))]. *)
Definition all_args_of (args : list value) (kwargs : gmap string value)
    : gmap key value :=
  let all_args := copy kwargs in
  update all_args (enumerate args).

(** The condition of [wrapped]:
    [any([isinstance(arg, _Arg) for arg in orig_args])
     or any([isinstance(kwarg, _Arg) for kwarg in orig_kwargs.values()])]. *)
Definition has_placeholder (orig_args : list value)
    (orig_kwargs : gmap string value) : bool :=
  existsb isinstance_Arg orig_args || existsb isinstance_Arg (values orig_kwargs).

(** [autopartial(f)] returns the closure [wrapped] over [f]. *)
Definition autopartial (f : callable) : callable := Wrapped f.

Section Calls.

(** What the targets do: the result of the target called [name] on its
    arguments, which may depend on the target calls made before. *)
Variable target : string → list value → gmap string value →
                  list invocation → result value.

(** Calling a target runs it and records the call. *)
Definition call_target (name : string) (args : list value)
    (kwargs : gmap string value) : M value :=
  fun h => (target name args kwargs h, h ++ [(name, args, kwargs)]).

(** The body of [new_f]; [f] is the callable of the enclosing
    [autopartial], here through [call_f]. *)
Definition new_f (call_f : list value → gmap string value → M value)
    (orig_args : list value) (orig_kwargs : gmap string value)
    (args : list value) (kwargs : gmap string value) : M value :=
  let all_args := all_args_of args kwargs in
  new_args <<- lift (list_comp (resolve all_args) orig_args);;
  new_kwargs <<- lift (dict_comp (resolve all_args) orig_kwargs);;
  call_f new_args new_kwargs.

(** The body of [wrapped]. *)
Definition wrapped (call_f : list value → gmap string value → M value)
    (f : callable) (orig_args : list value) (orig_kwargs : gmap string value)
    : M value :=
  if has_placeholder orig_args orig_kwargs
  then ret (VFun (autopartial (NewF f orig_args orig_kwargs)))
  else call_f orig_args orig_kwargs.

(** The call of [c] on the positional arguments [args] and the keyword
    arguments [kwargs]. *)
Fixpoint call (c : callable) (args : list value) (kwargs : gmap string value)
    : M value :=
  match c with
  | Prim name => call_target name args kwargs
  | Wrapped f => wrapped (call f) f args kwargs
  | NewF f orig_args orig_kwargs => new_f (call f) orig_args orig_kwargs args kwargs
  end.

(** What follows a call that is expected to return a callable: the
    call of that callable on [args] and [kwargs].  Calling an object
    that is not callable is a [TypeError]. *)
Definition then_call (r : result value * list invocation)
    (args : list value) (kwargs : gmap string value)
    : result value * list invocation :=
  match r with
  | (Return (VFun c), h) => call c args kwargs h
  | (Return _, h) => (Raise (Exception "TypeError" []), h)
  | (Raise e, h) => (Raise e, h)
  end.

End Calls.

(** ** Notions used in the statements *)

Definition to_option {A} (r : result A) : option A :=
  match r with Return a => Some a | Raise _ => None end.

(** [v] is a placeholder. *)
Definition is_placeholder (v : value) : Prop := ∃ a, v = VArg a.

(** No placeholder among the positional arguments and the keyword values. *)
Definition concrete (args : list value) (kwargs : gmap string value) : Prop :=
  Forall (fun v => ¬ is_placeholder v) args ∧
  map_Forall (fun _ v => ¬ is_placeholder v) kwargs.

(** Some placeholder is among the positional arguments or the keyword
    values. *)
Definition contains_placeholder (args : list value)
    (kwargs : gmap string value) : Prop :=
  (∃ a, VArg a ∈ args) ∨ (∃ s a, kwargs !! s = Some (VArg a)).

(** The placeholder [a] is among the captured arguments. *)
Definition captured (a : _Arg) (orig_args : list value)
    (orig_kwargs : gmap string value) : Prop :=
  VArg a ∈ orig_args ∨ ∃ s, orig_kwargs !! s = Some (VArg a).

(** The key [k] is supplied by a call with [args] and [kwargs]: a position
    below the number of positional arguments, or the name of one of the
    keyword arguments. *)
Definition covered (args : list value) (kwargs : gmap string value)
    (k : key) : Prop :=
  match k with
  | KInt i => 0 ≤ i < Z.of_nat (length args)
  | KStr s => is_Some (kwargs !! s)
  end.

(** The arguments which [new_f] passes on to [f]. *)
Definition resolve_call (orig_args : list value) (orig_kwargs : gmap string value)
    (args : list value) (kwargs : gmap string value)
    : result (list value * gmap string value) :=
  let all_args := all_args_of args kwargs in
  new_args <- list_comp (resolve all_args) orig_args;;
  new_kwargs <- dict_comp (resolve all_args) orig_kwargs;;
  Return (new_args, new_kwargs).

(** ** The resolution algorithm in the words of the specification *)

(** The binding mapping of a call: every positional argument under its
    0-based position, every keyword argument under its name. *)
Definition spec_binding (new_args : list value) (new_kwargs : gmap string value)
    (k : key) : option value :=
  match k with
  | KInt i => if decide (0 ≤ i) then new_args !! Z.to_nat i else None
  | KStr s => new_kwargs !! s
  end.

(** A placeholder is replaced by the lookup of its key in the binding
    mapping; any other value is kept.  [None] is a missing binding. *)
Definition spec_substitute (bm : key → option value) (v : value) : option value :=
  match v with
  | VArg a => bm (index a)
  | _ => Some v
  end.

(** The captured positional arguments, each one substituted. *)
Definition spec_resolve_args (bm : key → option value) (orig_args : list value)
    : option (list value) :=
  mapM (spec_substitute bm) orig_args.

(** The captured keyword arguments: the same keys, each value
    substituted. *)
Definition spec_resolve_kwargs (bm : key → option value)
    (orig_kwargs : gmap string value) : option (gmap string value) :=
  if decide (map_Forall (fun _ v => is_Some (spec_substitute bm v)) orig_kwargs)
  then Some (omap (spec_substitute bm) orig_kwargs)
  else None.

(** ** Arguments used in the examples *)

Definition nested_args : list value :=
  [VList [VArg _0_]; VTuple [VInt 1; VArg (_kw_ "q")]].

Definition nested_kwargs : gmap string value :=
  list_to_map [("opts"%string, VDict (list_to_map [("x"%string, VArg _1_)]))].

(** The two rounds of the module's documentation, for a function [f]:
    [verbose = f(_kw_('base'), _kw_('exponent'))] and
    [again = verbose(base=_0_, exponent=_1_)], as the closures [new_f]
    that the two calls create. *)
Definition verbose_closure (f : callable) : callable :=
  NewF f [VArg (_kw_ "base"); VArg (_kw_ "exponent")] ∅.

Definition again_closure (f : callable) : callable :=
  NewF (verbose_closure f) []
    (list_to_map [("base"%string, VArg _0_); ("exponent"%string, VArg _1_)]).

(** ** Argument lists made of placeholders only *)

(** [_0_, ..., _(m-1)_]: one positional placeholder for each of the first
    [m] positions. *)
Definition positional_placeholders (m : nat) : list value :=
  (fun i => VArg (mk_Arg (KInt (Z.of_nat i)))) <$> seq 0 m.

(** [_kw_(n)] for each name [n] of [names]. *)
Definition named_placeholders (names : list string) : list value :=
  (fun n => VArg (_kw_ n)) <$> names.

(** The closure obtained from [c] by [n] rounds of calling the decorated
    callable on [_0_, ..., _(m-1)_]. *)
Fixpoint identity_rounds (n : nat) (c : callable) (m : nat) : callable :=
  match n with
  | O => c
  | S n' => NewF (identity_rounds n' c m) (positional_placeholders m) ∅
  end.

(** ** The calls over a store of objects

    The calls above pass every argument by value.  Python passes
    references: a captured argument that is a list is the very object the
    underlying function receives, and the function may change it.  The
    module [Objects] gives the program once more with this in view.  A
    value is [None], an integer, a string, a placeholder, a callable or a
    reference to an object of the store; the objects are tuples, lists and
    dictionaries; the closure [new_f] holds the locations of the tuple
    [orig_args] and of the dictionary [orig_kwargs]; a target reads and
    writes the store.  A result of [None] is a location that does not hold
    an object of the expected kind. *)

Module Objects.

Inductive sval :=
| SNone
| SInt (n : Z)
| SStr (s : string)
| SArg (a : _Arg)
| SObj (l : positive)
| SFun (c : scallable)
with scallable :=
| SPrim (name : string)
| SWrapped (f : scallable)
| SNewF (f : scallable) (orig_args : positive) (orig_kwargs : positive).

Inductive obj :=
| OTuple (vs : list sval)
| OList (vs : list sval)
| OKwargs (d : gmap string sval)
| ODict (d : gmap key sval).

Abbreviation store := (gmap positive obj).

(** A new object, at a location not in use. *)
Definition alloc (σ : store) (o : obj) : positive * store :=
  let l := fresh (dom σ) in (l, <[l := o]> σ).

Definition read_tuple (σ : store) (l : positive) : option (list sval) :=
  match σ !! l with Some (OTuple vs) => Some vs | _ => None end.

Definition read_list (σ : store) (l : positive) : option (list sval) :=
  match σ !! l with Some (OList vs) => Some vs | _ => None end.

Definition read_kwargs (σ : store) (l : positive) : option (gmap string sval) :=
  match σ !! l with Some (OKwargs d) => Some d | _ => None end.

Definition read_dict (σ : store) (l : positive) : option (gmap key sval) :=
  match σ !! l with Some (ODict d) => Some d | _ => None end.

(** [isinstance(v, _Arg)] *)
Definition isinstance_Arg (v : sval) : bool :=
  match v with SArg _ => true | _ => false end.

(** [_Arg.get_value]: [return args[self.index]]. *)
Definition get_value (self : _Arg) (args : gmap key sval) : result sval :=
  match args !! index self with
  | Some v => Return v
  | None => Raise (KeyError (index self))
  end.

(** The contents of [kwargs.copy()]. *)
Definition copy (kwargs : gmap string sval) : gmap key sval :=
  kmap KStr kwargs.

(** The contents of a dictionary after [update(items)]. *)
Definition update (d : gmap key sval) (items : list (Z * sval)) : gmap key sval :=
  foldl (fun acc it => <[KInt it.1 := it.2]> acc) d items.

(** [d.update(items)] on the dictionary object at [l]: the object is
    changed in place. *)
Definition update_at (σ : store) (l : positive) (items : list (Z * sval))
    : option store :=
  match σ !! l with
  | Some (ODict d) => Some (<[l := ODict (update d items)]> σ)
  | _ => None
  end.

Fixpoint dict_comp_from (g : sval → result sval) (acc : gmap string sval)
    (items : list (string * sval)) : result (gmap string sval) :=
  match items with
  | [] => Return acc
  | (k, v) :: items' =>
      y <- g v;;
      dict_comp_from g (<[k := y]> acc) items'
  end.

Definition items (d : gmap string sval) : list (string * sval) :=
  map_to_list d.

Definition values (d : gmap string sval) : list sval :=
  (map_to_list d).*2.

Definition dict_comp (g : sval → result sval) (d : gmap string sval)
    : result (gmap string sval) :=
  dict_comp_from g ∅ (items d).

(** [orig.get_value(all_args) if isinstance(orig, _Arg) else orig]: a
    captured argument that is not a placeholder is passed on as it is, a
    reference as the same reference. *)
Definition resolve (all_args : gmap key sval) (orig : sval) : result sval :=
  match orig with
  | SArg a => get_value a all_args
  | _ => Return orig
  end.

Definition has_placeholder (orig_args : list sval)
    (orig_kwargs : gmap string sval) : bool :=
  existsb isinstance_Arg orig_args || existsb isinstance_Arg (values orig_kwargs).

Definition autopartial (f : scallable) : scallable := SWrapped f.

(** The arguments which [new_f] passes on, from the contents of the
    captured objects and of the call. *)
Definition resolve_call (orig_args : list sval) (orig_kwargs : gmap string sval)
    (args : list sval) (kwargs : gmap string sval)
    : result (list sval * gmap string sval) :=
  let all_args := update (copy kwargs) (enumerate args) in
  new_args <- list_comp (resolve all_args) orig_args;;
  new_kwargs <- dict_comp (resolve all_args) orig_kwargs;;
  Return (new_args, new_kwargs).

Definition invocation : Type := string * list sval * gmap string sval.

Definition outcome : Type := option (result sval * store * list invocation).

Section Calls.

(** What the targets do: the result and the store they leave. *)
Variable target : string → list sval → gmap string sval → store →
                  list invocation → result sval * store.

Definition call_target (name : string) (args : list sval)
    (kwargs : gmap string sval) (σ : store) (h : list invocation) : outcome :=
  let '(r, σ') := target name args kwargs σ h in
  Some (r, σ', h ++ [(name, args, kwargs)]).

(** The body of [new_f], statement by statement.  The call creates the
    tuple [args] and the dictionary [kwargs] of [new_f];
    [kwargs.copy()] and the two comprehensions create objects;
    [all_args.update] changes the copy in place; [f] receives the
    contents of [new_args] and [new_kwargs]. *)
Definition new_f (call_f : list sval → gmap string sval → store →
                           list invocation → outcome)
    (orig_args orig_kwargs : positive)
    (args_v : list sval) (kwargs_v : gmap string sval)
    (σ : store) (h : list invocation) : outcome :=
  let '(args, σa) := alloc σ (OTuple args_v) in
  let '(kwargs, σb) := alloc σa (OKwargs kwargs_v) in
  kwargs_d ← read_kwargs σb kwargs;
  let '(all_args, σ1) := alloc σb (ODict (copy kwargs_d)) in
  args_t ← read_tuple σ1 args;
  σ2 ← update_at σ1 all_args (enumerate args_t);
  orig_args_t ← read_tuple σ2 orig_args;
  all_args_d ← read_dict σ2 all_args;
  match list_comp (resolve all_args_d) orig_args_t with
  | Raise e => Some (Raise e, σ2, h)
  | Return vs =>
      let '(new_args, σ3) := alloc σ2 (OList vs) in
      orig_kwargs_d ← read_kwargs σ3 orig_kwargs;
      all_args_d' ← read_dict σ3 all_args;
      match dict_comp (resolve all_args_d') orig_kwargs_d with
      | Raise e => Some (Raise e, σ3, h)
      | Return kvs =>
          let '(new_kwargs, σ4) := alloc σ3 (OKwargs kvs) in
          star_args ← read_list σ4 new_args;
          star_kwargs ← read_kwargs σ4 new_kwargs;
          call_f star_args star_kwargs σ4 h
      end
  end.

(** The body of [wrapped].  The call creates the tuple [orig_args] and
    the dictionary [orig_kwargs]; with a placeholder among them the
    closure [new_f] that holds these two objects is returned, decorated. *)
Definition wrapped (call_f : list sval → gmap string sval → store →
                             list invocation → outcome)
    (f : scallable) (args_v : list sval) (kwargs_v : gmap string sval)
    (σ : store) (h : list invocation) : outcome :=
  let '(orig_args, σ1) := alloc σ (OTuple args_v) in
  let '(orig_kwargs, σ2) := alloc σ1 (OKwargs kwargs_v) in
  orig_args_t ← read_tuple σ2 orig_args;
  orig_kwargs_d ← read_kwargs σ2 orig_kwargs;
  if has_placeholder orig_args_t orig_kwargs_d
  then Some (Return (SFun (autopartial (SNewF f orig_args orig_kwargs))), σ2, h)
  else call_f orig_args_t orig_kwargs_d σ2 h.

Fixpoint call (c : scallable) (args : list sval) (kwargs : gmap string sval)
    (σ : store) (h : list invocation) : outcome :=
  match c with
  | SPrim name => call_target name args kwargs σ h
  | SWrapped f => wrapped (call f) f args kwargs σ h
  | SNewF f orig_args orig_kwargs =>
      new_f (call f) orig_args orig_kwargs args kwargs σ h
  end.

End Calls.

(** [Q] holds of the objects which a step leaves as they are. *)
Definition keeps (Q : obj → Prop) (σ σ' : store) : Prop :=
  ∀ l o, Q o → σ !! l = Some o → σ' !! l = Some o.

(** No target changes an object of which [Q] holds. *)
Definition target_keeps
    (target : string → list sval → gmap string sval → store →
              list invocation → result sval * store)
    (Q : obj → Prop) : Prop :=
  ∀ name args kwargs σ h, keeps Q σ (target name args kwargs σ h).2.

(** The closures of [c] hold a tuple and a dictionary of which [Q]
    holds. *)
Fixpoint wf_callable (Q : obj → Prop) (σ : store) (c : scallable) : Prop :=
  match c with
  | SPrim _ => True
  | SWrapped f => wf_callable Q σ f
  | SNewF f orig_args orig_kwargs =>
      (∃ oa, σ !! orig_args = Some (OTuple oa) ∧ Q (OTuple oa)) ∧
      (∃ ok, σ !! orig_kwargs = Some (OKwargs ok) ∧ Q (OKwargs ok)) ∧
      wf_callable Q σ f
  end.

Definition is_list (o : obj) : Prop := ∃ vs, o = OList vs.

(** The binding of the parameters [p1, p2] of a function of two
    parameters: positional arguments first, the remaining parameters by
    keyword; [None] is a [TypeError]. *)
Definition bind_two (p1 p2 : string) (args : list sval)
    (kwargs : gmap string sval) : option (sval * sval) :=
  match args with
  | [a; b] => if decide (kwargs = ∅) then Some (a, b) else None
  | [a] =>
      match kwargs !! p2 with
      | Some b => if decide (size kwargs = 1%nat) then Some (a, b) else None
      | None => None
      end
  | [] =>
      match kwargs !! p1, kwargs !! p2 with
      | Some a, Some b => if decide (size kwargs = 2%nat) then Some (a, b) else None
      | _, _ => None
      end
  | _ => None
  end.

(** [def g(lst, x): lst.append(x); return lst], a target that changes
    its first argument in place; only a list has [append]. *)
Definition append_target (name : string) (args : list sval)
    (kwargs : gmap string sval) (σ : store) (h : list invocation)
    : result sval * store :=
  match bind_two "lst" "x" args kwargs with
  | Some (SObj l, x) =>
      match σ !! l with
      | Some (OList vs) => (Return (SObj l), <[l := OList (vs ++ [x])]> σ)
      | _ => (Raise (Exception "AttributeError" []), σ)
      end
  | Some (_, _) => (Raise (Exception "AttributeError" []), σ)
  | None => (Raise (Exception "TypeError" []), σ)
  end.

(** The objects of [nf = g(lst, _0_)] for a list [lst] that is empty: the
    list at 1, the captured tuple [(lst, _0_)] at 2 and the captured,
    empty dictionary at 3. *)
Definition example_store : store :=
  <[1%positive := OList []]>
  (<[2%positive := OTuple [SObj 1%positive; SArg _0_]]>
  (<[3%positive := OKwargs ∅]> ∅)).

Definition example_nf : scallable :=
  autopartial (SNewF (SPrim "g") 2%positive 3%positive).

(** What a run leaves. *)
Definition result_after (o : outcome) : option (result sval) :=
  match o with Some (r, _, _) => Some r | None => None end.

Definition store_after (o : outcome) : store :=
  match o with Some (_, σ, _) => σ | None => ∅ end.

Definition history_after (o : outcome) : list invocation :=
  match o with Some (_, _, h) => h | None => [] end.

(** [nf(1)], then [nf(2)] in the store which [nf(1)] left; and [nf(2)]
    as the first call. *)
Definition example_first_run : outcome :=
  call append_target example_nf [SInt 1] ∅ example_store [].

Definition example_second_run : outcome :=
  call append_target example_nf [SInt 2] ∅
    (store_after example_first_run) (history_after example_first_run).

Definition example_second_alone : outcome :=
  call append_target example_nf [SInt 2] ∅ example_store [].

End Objects.

(** ** Two concrete targets *)

(** [def f( *args, **kwargs): return args, kwargs] of the test class
    (what it prints is left out), and [def power(a, b): return a**b] of
    the module's documentation.  On integers with a non-negative exponent
    the power is an integer; with a negative exponent Python gives a
    float, which is not among the values here; on the other values of
    this model [**] is a [TypeError]. *)
Definition power_op (a b : value) : result value :=
  match a, b with
  | VInt x, VInt y =>
      if decide (0 ≤ y) then Return (VInt (x ^ y))
      else Raise (Exception "NotModelled" [a; b])
  | _, _ => Raise (Exception "TypeError" [a; b])
  end.

(** The binding of the parameters [a, b] of [power]: positional
    arguments first, the remaining parameters by keyword. *)
Definition power (args : list value) (kwargs : gmap string value) : result value :=
  match args with
  | [a; b] =>
      if decide (kwargs = ∅) then power_op a b
      else Raise (Exception "TypeError" [])
  | [a] =>
      match kwargs !! "b"%string with
      | Some b =>
          if decide (size kwargs = 1%nat) then power_op a b
          else Raise (Exception "TypeError" [])
      | None => Raise (Exception "TypeError" [])
      end
  | [] =>
      match kwargs !! "a"%string, kwargs !! "b"%string with
      | Some a, Some b =>
          if decide (size kwargs = 2%nat) then power_op a b
          else Raise (Exception "TypeError" [])
      | _, _ => Raise (Exception "TypeError" [])
      end
  | _ => Raise (Exception "TypeError" [])
  end.

Definition py_target (name : string) (args : list value)
    (kwargs : gmap string value) (h : list invocation) : result value :=
  if String.eqb name "f" then Return (VTuple [VTuple args; VDict kwargs])
  else if String.eqb name "power" then power args kwargs
  else Raise (Exception "NameError" [VStr name]).

Definition kw (l : list (string * value)) : gmap string value := list_to_map l.

Definition test_f : callable := autopartial (Prim "f").

(** * Properties of the primitives *)

Lemma isinstance_Arg_true v : isinstance_Arg v = true ↔ is_placeholder v.
Proof.
  split.
  - destruct v; simpl; try discriminate. intros _. by eexists.
  - by intros [a ->].
Qed.

Lemma isinstance_Arg_false v : isinstance_Arg v = false ↔ ¬ is_placeholder v.
Proof.
  rewrite <- isinstance_Arg_true. destruct (isinstance_Arg v); naive_solver.
Qed.

Lemma existsb_isinstance_false (vs : list value) :
  existsb isinstance_Arg vs = false ↔ Forall (fun v => ¬ is_placeholder v) vs.
Proof.
  induction vs as [|v vs IH]; simpl.
  - split; [constructor | done].
  - rewrite orb_false_iff, Forall_cons, IH, isinstance_Arg_false. done.
Qed.

Lemma existsb_isinstance_true (vs : list value) :
  existsb isinstance_Arg vs = true ↔ ∃ a, VArg a ∈ vs.
Proof.
  rewrite existsb_exists. split.
  - intros (v & Hin & Hv). apply isinstance_Arg_true in Hv as [a ->].
    exists a. by apply list_elem_of_In.
  - intros (a & Hin). exists (VArg a). split; [by apply list_elem_of_In | done].
Qed.

Lemma elem_of_values (d : gmap string value) v :
  v ∈ values d ↔ ∃ s, d !! s = Some v.
Proof.
  unfold values. rewrite list_elem_of_fmap. split.
  - intros ([s v'] & -> & Hin). exists s. by apply elem_of_map_to_list.
  - intros (s & Hs). exists (s, v). split; [done | by apply elem_of_map_to_list].
Qed.

Lemma has_placeholder_false args kwargs :
  has_placeholder args kwargs = false ↔ concrete args kwargs.
Proof.
  unfold has_placeholder, concrete.
  rewrite orb_false_iff, !existsb_isinstance_false.
  split; intros [H1 H2]; split; try done.
  - intros s v Hs. rewrite Forall_forall in H2.
    apply H2. apply elem_of_values. eauto.
  - apply Forall_forall. intros v [s Hs]%elem_of_values. by apply (H2 s v).
Qed.

Lemma has_placeholder_true args kwargs :
  has_placeholder args kwargs = true ↔
  (∃ a, VArg a ∈ args) ∨ (∃ s a, kwargs !! s = Some (VArg a)).
Proof.
  unfold has_placeholder.
  rewrite orb_true_iff, !existsb_isinstance_true.
  split; (intros [H|H]; [by left | right]).
  - destruct H as (a & [s Hs]%elem_of_values). eauto.
  - destruct H as (s & a & Hs). exists a. apply elem_of_values. eauto.
Qed.

(** *** The binding dictionary *)

Lemma update_lookup_str d its s : update d its !! KStr s = d !! KStr s.
Proof.
  unfold update. revert d.
  induction its as [|[i v] its IH]; intros d; simpl; [done |].
  rewrite IH. by rewrite lookup_insert_ne.
Qed.

Lemma update_lookup_from d (n : nat) (l : list value) (j : Z) :
  update d (imap (fun i x => (Z.of_nat (n + i), x)) l) !! KInt j =
  if decide (Z.of_nat n ≤ j < Z.of_nat (n + length l))
  then l !! (Z.to_nat j - n)%nat
  else d !! KInt j.
Proof.
  unfold update. revert d n.
  induction l as [|x l IH]; intros d n; simpl.
  - case_decide; [lia | done].
  - rewrite (imap_ext _ (fun i x => (Z.of_nat (S n + i), x))).
    2:{ intros i y _. simpl. f_equal. lia. }
    rewrite IH.
    repeat case_decide; try lia.
    + replace (Z.to_nat j - n)%nat with (S (Z.to_nat j - S n)) by lia. done.
    + assert (j = Z.of_nat (n + 0)) as -> by lia.
      rewrite lookup_insert_eq.
      replace (Z.to_nat (Z.of_nat (n + 0)) - n)%nat with 0%nat by lia. done.
    + rewrite lookup_insert_ne; [done |]. intros [= Heq]. lia.
Qed.

Lemma copy_lookup_int kwargs i : copy kwargs !! KInt i = None.
Proof. unfold copy. apply lookup_kmap_None; [apply _|]. intros s [=]. Qed.

Lemma copy_lookup_str kwargs s : copy kwargs !! KStr s = kwargs !! s.
Proof. unfold copy. apply (lookup_kmap KStr). Qed.

(** Keyword [s] of the call is bound under the string [s]. *)
Lemma all_args_lookup_str args kwargs s :
  all_args_of args kwargs !! KStr s = kwargs !! s.
Proof.
  unfold all_args_of. rewrite update_lookup_str. apply copy_lookup_str.
Qed.

(** Positional argument [i] of the call is bound under the integer [i],
    and no other integer is bound. *)
Lemma all_args_lookup_int args kwargs (i : Z) :
  all_args_of args kwargs !! KInt i =
  if decide (0 ≤ i) then args !! Z.to_nat i else None.
Proof.
  unfold all_args_of, enumerate.
  pose proof (update_lookup_from (copy kwargs) 0 args i) as H.
  simpl in H. rewrite H. clear H.
  repeat case_decide; try lia.
  - f_equal. lia.
  - rewrite copy_lookup_int. symmetry. apply lookup_ge_None. lia.
  - apply copy_lookup_int.
Qed.

Lemma all_args_lookup_nat args kwargs (i : nat) :
  all_args_of args kwargs !! KInt (Z.of_nat i) = args !! i.
Proof.
  rewrite all_args_lookup_int. case_decide; [|lia]. by rewrite Nat2Z.id.
Qed.

(** *** The comprehensions *)

Lemma list_comp_Return {A B} (g : A → result B) xs ys :
  list_comp g xs = Return ys ↔ Forall2 (fun x y => g x = Return y) xs ys.
Proof.
  revert ys. induction xs as [|x xs IH]; intros ys; simpl.
  - split.
    + intros [= <-]. constructor.
    + by intros ->%Forall2_nil_inv_l.
  - split.
    + destruct (g x) as [y|e] eqn:Hg; simpl; [|done].
      destruct (list_comp g xs) as [ys'|e] eqn:Hl; simpl; [|done].
      intros [= <-]. constructor; [done |]. by apply IH.
    + intros (y & ys' & Hg & Hrest & ->)%Forall2_cons_inv_l.
      rewrite Hg. simpl. apply IH in Hrest. by rewrite Hrest.
Qed.

Lemma list_comp_Raise {A B} (g : A → result B) xs e :
  list_comp g xs = Raise e → ∃ x, x ∈ xs ∧ g x = Raise e.
Proof.
  induction xs as [|x xs IH]; simpl; [done |].
  destruct (g x) as [y|e'] eqn:Hg; simpl.
  - destruct (list_comp g xs) as [ys'|e'] eqn:Hl; simpl; [done |].
    intros [= ->]. destruct IH as (x' & Hin & Hx'); [done |].
    exists x'. split; [by right | done].
  - intros [= ->]. exists x. split; [by left | done].
Qed.

Lemma list_comp_length {A B} (g : A → result B) xs ys :
  list_comp g xs = Return ys → length ys = length xs.
Proof. intros H%list_comp_Return. symmetry. by eapply Forall2_length. Qed.

Lemma list_comp_lookup {A B} (g : A → result B) xs ys i :
  list_comp g xs = Return ys →
  ys !! i = xs !! i ≫= (fun x => to_option (g x)).
Proof.
  intros H%list_comp_Return. revert i.
  induction H as [|x y xs ys Hg _ IH]; intros [|i]; simpl; try done.
  by rewrite Hg.
Qed.

Lemma dict_comp_from_Return {B} (g : value → result B) acc its m :
  dict_comp_from g acc its = Return m →
  ∀ k, (∃ v y, (k, v) ∈ its ∧ g v = Return y ∧ m !! k = Some y) ∨
       ((∀ v, (k, v) ∉ its) ∧ m !! k = acc !! k).
Proof.
  revert acc. induction its as [|[k0 v0] its IH]; intros acc; simpl.
  - intros [= <-] k. right. split; [|done]. intros v Hin. by apply elem_of_nil in Hin.
  - destruct (g v0) as [y0|e] eqn:Hg; simpl; [|done].
    intros Hrest k. destruct (IH _ Hrest k) as [(v & y & Hin & Hv & Hm)|[Hnot Hm]].
    + left. exists v, y. split; [by right | done].
    + destruct (decide (k0 = k)) as [->|Hne].
      * left. exists v0, y0. rewrite Hm, lookup_insert_eq.
        split; [by left | done].
      * right. rewrite Hm, lookup_insert_ne by done. split; [|done].
        intros v [[= ? ?]|Hin]%elem_of_cons; [done | by eapply Hnot].
Qed.

Lemma dict_comp_from_Raise {B} (g : value → result B) acc its e :
  dict_comp_from g acc its = Raise e → ∃ k v, (k, v) ∈ its ∧ g v = Raise e.
Proof.
  revert acc. induction its as [|[k0 v0] its IH]; intros acc; simpl; [done |].
  destruct (g v0) as [y0|e'] eqn:Hg; simpl.
  - intros (k & v & Hin & Hv)%IH. exists k, v. split; [by right | done].
  - intros [= ->]. exists k0, v0. split; [by left | done].
Qed.

Lemma dict_comp_from_total {B} (g : value → result B) acc its :
  (∀ k v, (k, v) ∈ its → ∃ y, g v = Return y) →
  ∃ m, dict_comp_from g acc its = Return m.
Proof.
  revert acc. induction its as [|[k0 v0] its IH]; intros acc Hall; simpl.
  - by eexists.
  - destruct (Hall k0 v0) as [y0 ->]; [by left |]. simpl.
    apply IH. intros k v Hin. apply (Hall k). by right.
Qed.

(** The comprehension keeps the keys and maps every value by [g]. *)
Lemma dict_comp_Return {B} (g : value → result B) d m :
  dict_comp g d = Return m →
  ∀ k, m !! k = d !! k ≫= (fun v => to_option (g v)) ∧
       (∀ v, d !! k = Some v → ∃ y, g v = Return y).
Proof.
  unfold dict_comp, items. intros H k.
  destruct (dict_comp_from_Return _ _ _ _ H k)
    as [(v & y & Hin%elem_of_map_to_list & Hv & Hm)|[Hnot Hm]].
  - rewrite Hin, Hm. simpl. rewrite Hv. split; [done |].
    intros v' [= <-]. eauto.
  - rewrite lookup_empty in Hm. destruct (d !! k) as [v|] eqn:Hd.
    + exfalso. apply (Hnot v). by apply elem_of_map_to_list.
    + done.
Qed.

Lemma dict_comp_omap {B} (g : value → result B) d m :
  dict_comp g d = Return m → m = omap (fun v => to_option (g v)) d.
Proof.
  intros H. apply map_eq. intros k. rewrite lookup_omap.
  by destruct (dict_comp_Return _ _ _ H k) as [-> _].
Qed.

Lemma dict_comp_dom {B} (g : value → result B) d m :
  dict_comp g d = Return m → dom m = dom d.
Proof.
  intros H. apply set_eq. intros k. rewrite !elem_of_dom.
  destruct (dict_comp_Return _ _ _ H k) as [-> Hall].
  destruct (d !! k) as [v|] eqn:Hd; simpl.
  - destruct (Hall v eq_refl) as [y ->]. simpl. split; eauto.
  - split; by intros [? ?].
Qed.

Lemma dict_comp_Raise {B} (g : value → result B) d e :
  dict_comp g d = Raise e → ∃ k v, d !! k = Some v ∧ g v = Raise e.
Proof.
  unfold dict_comp, items.
  intros (k & v & Hin%elem_of_map_to_list & Hv)%dict_comp_from_Raise. eauto.
Qed.

Lemma dict_comp_total {B} (g : value → result B) d :
  (∀ k v, d !! k = Some v → ∃ y, g v = Return y) →
  ∃ m, dict_comp g d = Return m.
Proof.
  intros Hall. apply dict_comp_from_total.
  intros k v Hin%elem_of_map_to_list. eauto.
Qed.

(** *** Resolution *)

Lemma resolve_concrete all_args v : ¬ is_placeholder v → resolve all_args v = Return v.
Proof. destruct v; simpl; try done. intros []. by eexists. Qed.

Lemma resolve_placeholder all_args a :
  resolve all_args (VArg a) =
  match all_args !! index a with
  | Some v => Return v
  | None => Raise (KeyError (index a))
  end.
Proof. done. Qed.

Lemma resolve_Raise all_args v e :
  resolve all_args v = Raise e →
  ∃ a, v = VArg a ∧ all_args !! index a = None ∧ e = KeyError (index a).
Proof.
  destruct v; simpl; try done. unfold get_value.
  destruct (all_args !! index a) eqn:Hl; [done |]. intros [= <-]. eauto.
Qed.

Lemma list_comp_resolve_concrete all_args vs :
  Forall (fun v => ¬ is_placeholder v) vs →
  list_comp (resolve all_args) vs = Return vs.
Proof.
  intros H. apply list_comp_Return. induction H; constructor; [|done].
  by apply resolve_concrete.
Qed.

Lemma dict_comp_resolve_concrete all_args d :
  map_Forall (fun _ v => ¬ is_placeholder v) d →
  dict_comp (resolve all_args) d = Return d.
Proof.
  intros H.
  destruct (dict_comp_total (resolve all_args) d) as [m Hm].
  { intros k v Hk. exists v. apply resolve_concrete. by apply (H k). }
  rewrite Hm. f_equal. apply map_eq. intros k.
  destruct (dict_comp_Return _ _ _ Hm k) as [-> _].
  destruct (d !! k) as [v|] eqn:Hd; simpl; [|done].
  rewrite resolve_concrete; [done |]. by apply (H k).
Qed.

(** * Properties of the calls *)

Lemma all_args_covered args kwargs k :
  is_Some (all_args_of args kwargs !! k) ↔ covered args kwargs k.
Proof.
  destruct k as [i|s]; simpl.
  - rewrite all_args_lookup_int. case_decide.
    + rewrite lookup_lt_is_Some. lia.
    + split; [by intros [? ?] | lia].
  - by rewrite all_args_lookup_str.
Qed.

Lemma all_args_not_covered args kwargs k :
  all_args_of args kwargs !! k = None ↔ ¬ covered args kwargs k.
Proof. rewrite <- all_args_covered, eq_None_not_Some. done. Qed.

Section CallFacts.

Variable target : string → list value → gmap string value →
                  list invocation → result value.

Lemma call_wrapped_defer f args kwargs h :
  has_placeholder args kwargs = true →
  call target (Wrapped f) args kwargs h =
  (Return (VFun (autopartial (NewF f args kwargs))), h).
Proof. intros H. simpl. unfold wrapped. by rewrite H. Qed.

Lemma call_wrapped_pass f args kwargs h :
  has_placeholder args kwargs = false →
  call target (Wrapped f) args kwargs h = call target f args kwargs h.
Proof. intros H. simpl. unfold wrapped. by rewrite H. Qed.

Lemma call_new_f f orig_args orig_kwargs args kwargs h :
  call target (NewF f orig_args orig_kwargs) args kwargs h =
  match resolve_call orig_args orig_kwargs args kwargs with
  | Return (new_args, new_kwargs) => call target f new_args new_kwargs h
  | Raise e => (Raise e, h)
  end.
Proof.
  simpl. unfold new_f, resolve_call, bindM, lift.
  destruct (list_comp _ orig_args); simpl; [|done].
  destruct (dict_comp _ orig_kwargs); simpl; done.
Qed.

Lemma call_autopartial_concrete f args kwargs h :
  concrete args kwargs →
  call target (autopartial f) args kwargs h = call target f args kwargs h.
Proof. intros Hc. apply call_wrapped_pass. by apply has_placeholder_false. Qed.

Lemma call_autopartial_placeholder f args kwargs h :
  contains_placeholder args kwargs →
  call target (autopartial f) args kwargs h =
  (Return (VFun (autopartial (NewF f args kwargs))), h).
Proof. intros Hp. apply call_wrapped_defer. by apply has_placeholder_true. Qed.

Lemma then_call_callable c h args kwargs :
  then_call target (Return (VFun c), h) args kwargs = call target c args kwargs h.
Proof. done. Qed.

(** A call only ever extends the history. *)
Lemma call_history c args kwargs h :
  h `prefix_of` (call target c args kwargs h).2.
Proof.
  revert args kwargs.
  induction c as [name|f IH|f IH oa ok]; intros args kwargs.
  - simpl. by apply prefix_app_r.
  - simpl. unfold wrapped. destruct (has_placeholder args kwargs); [done | apply IH].
  - rewrite call_new_f. destruct (resolve_call oa ok args kwargs) as [[na nk]|e].
    + apply IH.
    + done.
Qed.

End CallFacts.

(** * The resolution of [new_f] and the specification's algorithm *)

(** The dictionary [all_args] which [new_f] builds is the binding mapping. *)
Lemma all_args_spec_binding args kwargs k :
  all_args_of args kwargs !! k = spec_binding args kwargs k.
Proof.
  destruct k as [i|s]; simpl.
  - apply all_args_lookup_int.
  - apply all_args_lookup_str.
Qed.

Lemma spec_binding_covered args kwargs k :
  is_Some (spec_binding args kwargs k) ↔ covered args kwargs k.
Proof. rewrite <- all_args_spec_binding. apply all_args_covered. Qed.

Lemma resolve_spec_substitute args kwargs v :
  to_option (resolve (all_args_of args kwargs) v) =
  spec_substitute (spec_binding args kwargs) v.
Proof.
  destruct v; simpl; try done.
  unfold get_value. rewrite all_args_spec_binding.
  by destruct (spec_binding args kwargs (index a)).
Qed.

Lemma resolve_Return_spec args kwargs v r :
  resolve (all_args_of args kwargs) v = Return r ↔
  spec_substitute (spec_binding args kwargs) v = Some r.
Proof.
  rewrite <- resolve_spec_substitute.
  destruct (resolve _ v); simpl; split; congruence.
Qed.

Lemma list_comp_resolve_spec args kwargs orig_args ra :
  list_comp (resolve (all_args_of args kwargs)) orig_args = Return ra ↔
  spec_resolve_args (spec_binding args kwargs) orig_args = Some ra.
Proof.
  unfold spec_resolve_args. rewrite list_comp_Return, mapM_Some.
  split; (intros H; eapply Forall2_impl; [exact H |]); simpl;
    intros v r Hv; by apply resolve_Return_spec.
Qed.

Lemma dict_comp_resolve_spec args kwargs orig_kwargs rk :
  dict_comp (resolve (all_args_of args kwargs)) orig_kwargs = Return rk ↔
  spec_resolve_kwargs (spec_binding args kwargs) orig_kwargs = Some rk.
Proof.
  unfold spec_resolve_kwargs. split.
  - intros H. rewrite decide_True.
    + f_equal. rewrite (dict_comp_omap _ _ _ H).
      apply map_eq. intros k. rewrite !lookup_omap.
      destruct (orig_kwargs !! k); simpl; [|done].
      symmetry. apply resolve_spec_substitute.
    + intros k v Hk.
      destruct (dict_comp_Return _ _ _ H k) as [_ Hall].
      destruct (Hall v Hk) as [y Hy]. exists y. by apply resolve_Return_spec.
  - case_decide as Hall; [|done]. intros [= <-].
    destruct (dict_comp_total (resolve (all_args_of args kwargs)) orig_kwargs)
      as [m Hm].
    { intros k v Hk. destruct (Hall k v Hk) as [y Hy].
      exists y. by apply resolve_Return_spec. }
    rewrite Hm. f_equal. rewrite (dict_comp_omap _ _ _ Hm).
    apply map_eq. intros k. rewrite !lookup_omap.
    destruct (orig_kwargs !! k); simpl; [|done].
    apply resolve_spec_substitute.
Qed.

Lemma resolve_call_Return orig_args orig_kwargs args kwargs new_args new_kwargs :
  resolve_call orig_args orig_kwargs args kwargs = Return (new_args, new_kwargs) ↔
  list_comp (resolve (all_args_of args kwargs)) orig_args = Return new_args ∧
  dict_comp (resolve (all_args_of args kwargs)) orig_kwargs = Return new_kwargs.
Proof.
  unfold resolve_call. simpl.
  destruct (list_comp _ orig_args) as [na|e]; simpl.
  - destruct (dict_comp _ orig_kwargs) as [nk|e]; simpl.
    + split; [by intros [= -> ->] | by intros [[= ->] [= ->]]].
    + split; [done | by intros [_ ?]].
  - split; [done | by intros [? _]].
Qed.

(** The arguments passed on are those of the specification's algorithm. *)
Lemma resolve_call_spec orig_args orig_kwargs args kwargs ra rk :
  resolve_call orig_args orig_kwargs args kwargs = Return (ra, rk) ↔
  spec_resolve_args (spec_binding args kwargs) orig_args = Some ra ∧
  spec_resolve_kwargs (spec_binding args kwargs) orig_kwargs = Some rk.
Proof.
  by rewrite resolve_call_Return, list_comp_resolve_spec, dict_comp_resolve_spec.
Qed.

(** A failed resolution is the [KeyError] of a captured placeholder whose
    key the call does not supply. *)
Lemma resolve_call_Raise orig_args orig_kwargs args kwargs e :
  resolve_call orig_args orig_kwargs args kwargs = Raise e →
  ∃ a, captured a orig_args orig_kwargs ∧
       ¬ covered args kwargs (index a) ∧ e = KeyError (index a).
Proof.
  unfold resolve_call. simpl.
  destruct (list_comp _ orig_args) as [na|e'] eqn:Hl; simpl.
  - destruct (dict_comp _ orig_kwargs) as [nk|e'] eqn:Hd; simpl; [done |].
    intros [= ->].
    apply dict_comp_Raise in Hd as (s & v & Hs & Hv).
    apply resolve_Raise in Hv as (a & -> & Hnone & ->).
    exists a. split; [right; eauto |]. split; [|done].
    by apply all_args_not_covered.
  - intros [= ->].
    apply list_comp_Raise in Hl as (v & Hin & Hv).
    apply resolve_Raise in Hv as (a & -> & Hnone & ->).
    exists a. split; [by left |]. split; [|done].
    by apply all_args_not_covered.
Qed.

(** A resolution that succeeds has found every captured placeholder. *)
Lemma resolve_call_Return_covered orig_args orig_kwargs args kwargs r a :
  resolve_call orig_args orig_kwargs args kwargs = Return r →
  captured a orig_args orig_kwargs →
  covered args kwargs (index a).
Proof.
  destruct r as [na nk]. intros [Hl Hd]%resolve_call_Return Hcap.
  apply all_args_covered.
  destruct Hcap as [Hin|[s Hs]].
  - apply list_comp_Return in Hl.
    apply list_elem_of_lookup in Hin as [i Hi].
    destruct (Forall2_lookup_l _ _ _ _ _ Hl Hi) as (y & _ & Hy).
    rewrite resolve_placeholder in Hy.
    destruct (all_args_of args kwargs !! index a); [eauto | done].
  - destruct (dict_comp_Return _ _ _ Hd s) as [_ Hall].
    destruct (Hall _ Hs) as [y Hy]. rewrite resolve_placeholder in Hy.
    destruct (all_args_of args kwargs !! index a); [eauto | done].
Qed.

(** When the call supplies every captured placeholder, the resolution
    succeeds. *)
Lemma resolve_call_total orig_args orig_kwargs args kwargs :
  (∀ a, captured a orig_args orig_kwargs → covered args kwargs (index a)) →
  ∃ new_args new_kwargs,
    resolve_call orig_args orig_kwargs args kwargs = Return (new_args, new_kwargs).
Proof.
  intros Hall.
  destruct (resolve_call orig_args orig_kwargs args kwargs) as [[na nk]|e] eqn:Hr.
  - eauto.
  - apply resolve_call_Raise in Hr as (a & Hcap & Hnot & _).
    destruct Hnot. by apply Hall.
Qed.

Lemma list_comp_ext {A B} (g g' : A → result B) xs :
  (∀ x, x ∈ xs → g x = g' x) → list_comp g xs = list_comp g' xs.
Proof.
  induction xs as [|x xs IH]; intros H; simpl; [done |].
  rewrite (H x) by by left. rewrite IH; [done |].
  intros y Hy. apply H. by right.
Qed.

Lemma dict_comp_from_ext {B} (g g' : value → result B) acc its :
  (∀ k v, (k, v) ∈ its → g v = g' v) →
  dict_comp_from g acc its = dict_comp_from g' acc its.
Proof.
  revert acc. induction its as [|[k v] its IH]; intros acc H; simpl; [done |].
  rewrite (H k v) by by left. destruct (g' v); simpl; [|done].
  apply IH. intros k' v' Hin. apply (H k'). by right.
Qed.

(** The resolution depends on the call only through the keys of the
    captured placeholders. *)
Lemma resolve_call_agree orig_args orig_kwargs args kwargs args' kwargs' :
  (∀ a, captured a orig_args orig_kwargs →
        spec_binding args' kwargs' (index a) = spec_binding args kwargs (index a)) →
  resolve_call orig_args orig_kwargs args' kwargs' =
  resolve_call orig_args orig_kwargs args kwargs.
Proof.
  intros Hagree. unfold resolve_call. simpl.
  assert (∀ v, (v ∈ orig_args ∨ ∃ s, orig_kwargs !! s = Some v) →
               resolve (all_args_of args' kwargs') v =
               resolve (all_args_of args kwargs) v) as Hres.
  { intros v Hv. destruct v; simpl; try done.
    unfold get_value. rewrite !all_args_spec_binding.
    by rewrite Hagree. }
  rewrite (list_comp_ext _ (resolve (all_args_of args kwargs))).
  2:{ intros v Hv. apply Hres. by left. }
  destruct (list_comp _ orig_args); simpl; [|done].
  unfold dict_comp.
  rewrite (dict_comp_from_ext _ (resolve (all_args_of args kwargs))); [done |].
  intros k v Hin%elem_of_map_to_list. apply Hres. right. eauto.
Qed.

(** * The decorator *)

Lemma contains_placeholder_has args kwargs :
  contains_placeholder args kwargs ↔ has_placeholder args kwargs = true.
Proof. symmetry. apply has_placeholder_true. Qed.

Lemma concrete_not_contains args kwargs :
  concrete args kwargs → ¬ contains_placeholder args kwargs.
Proof.
  intros Hc%has_placeholder_false Hp%contains_placeholder_has. congruence.
Qed.

(** C2.  A decorated function called without any placeholder among its
    positional arguments and keyword values is the function itself called
    on these arguments: the same result or the same exception, and the
    same calls of targets. *)
Theorem autopartial_pass_through target f args kwargs h :
  concrete args kwargs →
  call target (autopartial f) args kwargs h = call target f args kwargs h.
Proof. apply call_autopartial_concrete. Qed.

Lemma autopartial_pass_through_witness :
  concrete [VInt 3; VInt 2] ∅ ∧
  call py_target (autopartial (Prim "power")) [VInt 3; VInt 2] ∅ [] =
  call py_target (Prim "power") [VInt 3; VInt 2] ∅ [].
Proof.
  assert (concrete [VInt 3; VInt 2] ∅) as Hc.
  { apply has_placeholder_false. reflexivity. }
  split; [exact Hc |].
  exact (autopartial_pass_through py_target (Prim "power") [VInt 3; VInt 2] ∅ [] Hc).
Defined.

(** C3.  A decorated function called with a placeholder among its
    positional arguments or keyword values calls no target (the history
    is unchanged) and returns a callable, which is the decorated [new_f];
    this callable, called with a placeholder again, again calls no target
    and returns a decorated [new_f]. *)
Theorem placeholder_call_defers target f args kwargs h :
  contains_placeholder args kwargs →
  call target (autopartial f) args kwargs h =
    (Return (VFun (autopartial (NewF f args kwargs))), h) ∧
  ∀ args' kwargs' h',
    contains_placeholder args' kwargs' →
    call target (autopartial (NewF f args kwargs)) args' kwargs' h' =
      (Return (VFun (autopartial (NewF (NewF f args kwargs) args' kwargs'))), h').
Proof.
  intros Hp. split.
  - by apply call_autopartial_placeholder.
  - intros args' kwargs' h' Hp'. by apply call_autopartial_placeholder.
Qed.

Lemma placeholder_call_defers_witness :
  contains_placeholder [VArg _0_; VInt 2] (kw [("a"%string, VArg _1_)]) ∧
  call py_target (autopartial (Prim "f")) [VArg _0_; VInt 2]
       (kw [("a"%string, VArg _1_)]) [] =
    (Return (VFun (autopartial
       (NewF (Prim "f") [VArg _0_; VInt 2] (kw [("a"%string, VArg _1_)])))), []) ∧
  ∀ args' kwargs' h',
    contains_placeholder args' kwargs' →
    call py_target
         (autopartial (NewF (Prim "f") [VArg _0_; VInt 2] (kw [("a"%string, VArg _1_)])))
         args' kwargs' h' =
      (Return (VFun (autopartial
         (NewF (NewF (Prim "f") [VArg _0_; VInt 2] (kw [("a"%string, VArg _1_)]))
               args' kwargs'))), h').
Proof.
  assert (contains_placeholder [VArg _0_; VInt 2] (kw [("a"%string, VArg _1_)])) as Hp.
  { apply contains_placeholder_has. reflexivity. }
  split; [exact Hp |].
  exact (placeholder_call_defers py_target (Prim "f") [VArg _0_; VInt 2]
           (kw [("a"%string, VArg _1_)]) [] Hp).
Defined.

(** C7.  An exception of the underlying function reaches the caller as it
    is, with the history the function left: from the immediate call of a
    decorated function, and from the call that a decorated [new_f] makes
    once it has resolved its arguments. *)
Theorem target_error_propagates target f e h h' :
  (∀ args kwargs,
     concrete args kwargs →
     call target f args kwargs h = (Raise e, h') →
     call target (autopartial f) args kwargs h = (Raise e, h')) ∧
  (∀ orig_args orig_kwargs args kwargs new_args new_kwargs,
     concrete args kwargs →
     resolve_call orig_args orig_kwargs args kwargs = Return (new_args, new_kwargs) →
     call target f new_args new_kwargs h = (Raise e, h') →
     call target (autopartial (NewF f orig_args orig_kwargs)) args kwargs h =
       (Raise e, h')).
Proof.
  split.
  - intros args kwargs Hc Hf. by rewrite call_autopartial_concrete.
  - intros oa ok args kwargs na nk Hc Hr Hf.
    rewrite call_autopartial_concrete by done.
    by rewrite call_new_f, Hr.
Qed.

Lemma target_error_propagates_witness :
  (concrete [VInt 1] ∅ ∧
   call py_target (Prim "power") [VInt 1] ∅ [] =
     (Raise (Exception "TypeError" []), [("power"%string, [VInt 1], ∅)]) ∧
   call py_target (autopartial (Prim "power")) [VInt 1] ∅ [] =
     (Raise (Exception "TypeError" []), [("power"%string, [VInt 1], ∅)])) ∧
  (concrete [VInt 1] ∅ ∧
   resolve_call [VArg _0_] ∅ [VInt 1] ∅ = Return ([VInt 1], ∅) ∧
   call py_target (autopartial (NewF (Prim "power") [VArg _0_] ∅)) [VInt 1] ∅ [] =
     (Raise (Exception "TypeError" []), [("power"%string, [VInt 1], ∅)])).
Proof.
  assert (concrete [VInt 1] ∅) as Hc.
  { apply has_placeholder_false. reflexivity. }
  pose proof (target_error_propagates py_target (Prim "power")
                (Exception "TypeError" []) [] [("power"%string, [VInt 1], ∅)])
    as [H1 H2].
  split.
  - split; [exact Hc |]. split; [reflexivity |].
    apply H1; [exact Hc | reflexivity].
  - split; [exact Hc |]. split; [reflexivity |].
    apply (H2 [VArg _0_] ∅ [VInt 1] ∅ [VInt 1] ∅); [exact Hc | reflexivity | reflexivity].
Defined.

(** C9.  Only the arguments themselves are inspected.  When no positional
    argument and no keyword value is itself a placeholder, whatever the
    lists, tuples and dictionaries among them contain, the decorated
    function calls the function on the arguments as they are; and a list,
    tuple or dictionary among the captured arguments of [new_f] is passed
    on as it is, whatever it contains. *)
Theorem placeholder_detection_is_shallow target f args kwargs h :
  concrete args kwargs →
  call target (autopartial f) args kwargs h = call target f args kwargs h ∧
  (∀ name, call target (autopartial (Prim name)) args kwargs h =
           (target name args kwargs h, h ++ [(name, args, kwargs)])) ∧
  (∀ all_args vs d,
     resolve all_args (VList vs) = Return (VList vs) ∧
     resolve all_args (VTuple vs) = Return (VTuple vs) ∧
     resolve all_args (VDict d) = Return (VDict d)).
Proof.
  intros Hc. split; [by apply call_autopartial_concrete |]. split.
  - intros name. by rewrite call_autopartial_concrete.
  - done.
Qed.

Lemma placeholder_detection_is_shallow_witness :
  concrete nested_args nested_kwargs ∧
  call py_target (autopartial (Prim "f")) nested_args nested_kwargs [] =
    call py_target (Prim "f") nested_args nested_kwargs [] ∧
  call py_target (autopartial (Prim "f")) nested_args nested_kwargs [] =
    (Return (VTuple [VTuple nested_args; VDict nested_kwargs]),
     [("f"%string, nested_args, nested_kwargs)]).
Proof.
  assert (concrete nested_args nested_kwargs) as Hc.
  { apply has_placeholder_false. reflexivity. }
  split; [exact Hc |].
  pose proof (placeholder_detection_is_shallow py_target (Prim "f")
                nested_args nested_kwargs [] Hc) as (H1 & H2 & _).
  split; [exact H1 | exact (H2 "f"%string)].
Defined.

(** * The deferred call *)

Lemma spec_binding_extra args kwargs extra_args extra_kwargs k :
  covered args kwargs k →
  spec_binding (args ++ extra_args) (kwargs ∪ extra_kwargs) k =
  spec_binding args kwargs k.
Proof.
  destruct k as [i|s]; simpl.
  - intros [H0 Hi]. rewrite !decide_True by done.
    apply lookup_app_l. lia.
  - intros [v Hv]. rewrite Hv. by apply lookup_union_Some_l.
Qed.

(** The call of a decorated [new_f] on arguments without placeholder. *)
Lemma call_deferred_concrete target f orig_args orig_kwargs args kwargs h :
  concrete args kwargs →
  call target (autopartial (NewF f orig_args orig_kwargs)) args kwargs h =
  match resolve_call orig_args orig_kwargs args kwargs with
  | Return (new_args, new_kwargs) => call target f new_args new_kwargs h
  | Raise e => (Raise e, h)
  end.
Proof.
  intros Hc. rewrite call_autopartial_concrete by done. apply call_new_f.
Qed.

(** C1, amended.  Let [h] be what a decorated function returns when it
    is called with a placeholder among [orig_args] and [orig_kwargs].
    Called with [new_args] and [new_kwargs], none of which is a
    placeholder, [h] builds the binding mapping of this call (its
    dictionary [all_args] is [spec_binding]), and when the captured
    arguments, substituted as the specification says, are [ra] and [rk],
    the call of [h] is the call of the underlying function on [ra] and
    [rk]. *)
Theorem deferred_call_resolves target f orig_args orig_kwargs
    new_args new_kwargs ra rk h0 h :
  contains_placeholder orig_args orig_kwargs →
  concrete new_args new_kwargs →
  spec_resolve_args (spec_binding new_args new_kwargs) orig_args = Some ra →
  spec_resolve_kwargs (spec_binding new_args new_kwargs) orig_kwargs = Some rk →
  ∃ hc,
    call target (autopartial f) orig_args orig_kwargs h0 = (Return (VFun hc), h0) ∧
    (∀ k, all_args_of new_args new_kwargs !! k = spec_binding new_args new_kwargs k) ∧
    call target hc new_args new_kwargs h = call target f ra rk h.
Proof.
  intros Hp Hc Hra Hrk.
  exists (autopartial (NewF f orig_args orig_kwargs)).
  split; [by apply call_autopartial_placeholder |].
  split; [intros k; apply all_args_spec_binding |].
  rewrite call_deferred_concrete by done.
  assert (resolve_call orig_args orig_kwargs new_args new_kwargs = Return (ra, rk))
    as ->; [by apply resolve_call_spec | done].
Qed.

Lemma deferred_call_resolves_witness :
  contains_placeholder [VArg (_kw_ "s"); VArg _1_; VInt 3]
    (kw [("a"%string, VArg _0_); ("b"%string, VInt 4)]) ∧
  concrete [VInt 145; VInt 543] (kw [("s"%string, VInt 444)]) ∧
  ∃ hc,
    call py_target (autopartial (Prim "f")) [VArg (_kw_ "s"); VArg _1_; VInt 3]
         (kw [("a"%string, VArg _0_); ("b"%string, VInt 4)]) [] =
      (Return (VFun hc), []) ∧
    (∀ k, all_args_of [VInt 145; VInt 543] (kw [("s"%string, VInt 444)]) !! k =
          spec_binding [VInt 145; VInt 543] (kw [("s"%string, VInt 444)]) k) ∧
    call py_target hc [VInt 145; VInt 543] (kw [("s"%string, VInt 444)]) [] =
    call py_target (Prim "f") [VInt 444; VInt 543; VInt 3]
         (kw [("a"%string, VInt 145); ("b"%string, VInt 4)]) [].
Proof.
  assert (contains_placeholder [VArg (_kw_ "s"); VArg _1_; VInt 3]
            (kw [("a"%string, VArg _0_); ("b"%string, VInt 4)])) as Hp.
  { apply contains_placeholder_has. reflexivity. }
  assert (concrete [VInt 145; VInt 543] (kw [("s"%string, VInt 444)])) as Hc.
  { apply has_placeholder_false. reflexivity. }
  split; [exact Hp |]. split; [exact Hc |].
  apply (deferred_call_resolves py_target (Prim "f") _ _ _ _
           [VInt 444; VInt 543; VInt 3]
           (kw [("a"%string, VInt 145); ("b"%string, VInt 4)]) [] [] Hp Hc).
  - reflexivity.
  - apply dict_comp_resolve_spec. reflexivity.
Defined.

(** C1 as it is stated fails when the later call itself has a
    placeholder: [h = f(_0_, 2)] called as [h(_1_)].  The algorithm gives
    the resolved arguments [(_1_, 2)], but [h] does not call the function
    on them: it calls nothing and returns another callable. *)
Lemma deferred_call_with_placeholder_counterexample :
  contains_placeholder [VArg _0_; VInt 2] ∅ ∧
  call py_target (autopartial (Prim "f")) [VArg _0_; VInt 2] ∅ [] =
    (Return (VFun (autopartial (NewF (Prim "f") [VArg _0_; VInt 2] ∅))), []) ∧
  spec_resolve_args (spec_binding [VArg _1_] ∅) [VArg _0_; VInt 2] =
    Some [VArg _1_; VInt 2] ∧
  spec_resolve_kwargs (spec_binding [VArg _1_] ∅) ∅ = Some ∅ ∧
  call py_target (autopartial (NewF (Prim "f") [VArg _0_; VInt 2] ∅)) [VArg _1_] ∅ [] =
    (Return (VFun (autopartial
       (NewF (NewF (Prim "f") [VArg _0_; VInt 2] ∅) [VArg _1_] ∅))), []) ∧
  call py_target (autopartial (NewF (Prim "f") [VArg _0_; VInt 2] ∅)) [VArg _1_] ∅ [] ≠
  call py_target (Prim "f") [VArg _1_; VInt 2] ∅ [].
Proof.
  split; [apply contains_placeholder_has; reflexivity |].
  split; [reflexivity |].
  split; [reflexivity |].
  split; [apply dict_comp_resolve_spec; reflexivity |].
  split; [reflexivity |].
  intros H. vm_compute in H. discriminate H.
Qed.

(** C4, amended.  When a decorated [new_f] is called with arguments none
    of which is a placeholder, and the key of some captured placeholder is
    not supplied by this call (a position that is not below the number of
    positional arguments, or a name that is not among the keyword
    arguments), the call raises the [KeyError] of such a key; no target is
    called. *)
Theorem missing_binding_raises target f orig_args orig_kwargs args kwargs h :
  concrete args kwargs →
  (∃ a, captured a orig_args orig_kwargs ∧ ¬ covered args kwargs (index a)) →
  ∃ a, captured a orig_args orig_kwargs ∧ ¬ covered args kwargs (index a) ∧
       call target (autopartial (NewF f orig_args orig_kwargs)) args kwargs h =
         (Raise (KeyError (index a)), h).
Proof.
  intros Hc (a & Hcap & Hnot).
  rewrite call_deferred_concrete by done.
  destruct (resolve_call orig_args orig_kwargs args kwargs) as [r|e] eqn:Hr.
  - destruct Hnot. by eapply resolve_call_Return_covered.
  - apply resolve_call_Raise in Hr as (a' & Hcap' & Hnot' & ->). eauto.
Qed.

Lemma missing_binding_raises_witness :
  concrete [VInt 145] ∅ ∧
  (∃ a, captured a [VInt 1; VInt 2] (kw [("a"%string, VInt 3); ("b"%string, VArg (_kw_ "q"))]) ∧
        ¬ covered [VInt 145] ∅ (index a)) ∧
  ∃ a, captured a [VInt 1; VInt 2] (kw [("a"%string, VInt 3); ("b"%string, VArg (_kw_ "q"))]) ∧
       ¬ covered [VInt 145] ∅ (index a) ∧
       call py_target
            (autopartial (NewF (Prim "f") [VInt 1; VInt 2]
               (kw [("a"%string, VInt 3); ("b"%string, VArg (_kw_ "q"))])))
            [VInt 145] ∅ [] =
         (Raise (KeyError (index a)), []).
Proof.
  assert (concrete [VInt 145] ∅) as Hc.
  { apply has_placeholder_false. reflexivity. }
  assert (∃ a, captured a [VInt 1; VInt 2]
                 (kw [("a"%string, VInt 3); ("b"%string, VArg (_kw_ "q"))]) ∧
               ¬ covered [VInt 145] ∅ (index a)) as Hm.
  { exists (_kw_ "q"). split.
    - right. exists "b"%string. reflexivity.
    - simpl. intros [v Hv]. discriminate Hv. }
  split; [exact Hc |]. split; [exact Hm |].
  exact (missing_binding_raises py_target (Prim "f") _ _ _ _ [] Hc Hm).
Defined.

(** C4 as it is stated fails when the later call itself has a
    placeholder: [h = f(_kw_('q'))] called as [h(_0_)].  The name [q] is
    not among the keyword arguments of this call, and no exception is
    raised: the call returns another callable. *)
Lemma missing_binding_deferred_counterexample :
  call py_target (autopartial (Prim "f")) [VArg (_kw_ "q")] ∅ [] =
    (Return (VFun (autopartial (NewF (Prim "f") [VArg (_kw_ "q")] ∅))), []) ∧
  captured (_kw_ "q") [VArg (_kw_ "q")] ∅ ∧
  ¬ covered [VArg _0_] ∅ (index (_kw_ "q")) ∧
  call py_target (autopartial (NewF (Prim "f") [VArg (_kw_ "q")] ∅)) [VArg _0_] ∅ [] =
    (Return (VFun (autopartial
       (NewF (NewF (Prim "f") [VArg (_kw_ "q")] ∅) [VArg _0_] ∅))), []) ∧
  ¬ ∃ e, (call py_target (autopartial (NewF (Prim "f") [VArg (_kw_ "q")] ∅))
               [VArg _0_] ∅ []).1 = Raise e.
Proof.
  split; [reflexivity |].
  split; [left; by left |].
  split; [simpl; intros [v Hv]; discriminate Hv |].
  split; [reflexivity |].
  intros [e He]. vm_compute in He. discriminate He.
Qed.

(** C5.  In one call of [new_f] every occurrence of a captured
    placeholder, among the positional arguments and among the keyword
    values, is replaced by one and the same value, the one bound to its
    key; and [f(_0_, 2, a=_0_, b=_0_)(145)], for [f] returning its
    arguments, is [((145, 2), {a: 145, b: 145})]. *)
Theorem repeated_placeholder_same_value :
  (∀ target f orig_args orig_kwargs args kwargs new_args new_kwargs a,
     resolve_call orig_args orig_kwargs args kwargs = Return (new_args, new_kwargs) →
     captured a orig_args orig_kwargs →
     ∃ v, spec_binding args kwargs (index a) = Some v ∧
          (∀ i, orig_args !! i = Some (VArg a) → new_args !! i = Some v) ∧
          (∀ s, orig_kwargs !! s = Some (VArg a) → new_kwargs !! s = Some v) ∧
          (∀ h, call target (NewF f orig_args orig_kwargs) args kwargs h =
                call target f new_args new_kwargs h)) ∧
  then_call py_target
    (call py_target (autopartial (Prim "f")) [VArg _0_; VInt 2]
       (kw [("a"%string, VArg _0_); ("b"%string, VArg _0_)]) [])
    [VInt 145] ∅ =
  (Return (VTuple [VTuple [VInt 145; VInt 2];
                   VDict (kw [("a"%string, VInt 145); ("b"%string, VInt 145)])]),
   [("f"%string, [VInt 145; VInt 2],
     kw [("a"%string, VInt 145); ("b"%string, VInt 145)])]).
Proof.
  split; [|reflexivity].
  intros target f oa ok args kwargs na nk a Hr Hcap.
  pose proof (resolve_call_Return_covered _ _ _ _ _ _ Hr Hcap) as Hcov.
  apply spec_binding_covered in Hcov as [v Hv].
  exists v. split; [done |].
  pose proof Hr as [Hl Hd]%resolve_call_Return.
  split; [|split].
  - intros i Hi. rewrite (list_comp_lookup _ _ _ i Hl), Hi. simpl.
    unfold get_value. by rewrite all_args_spec_binding, Hv.
  - intros s Hs. destruct (dict_comp_Return _ _ _ Hd s) as [-> _].
    rewrite Hs. simpl. unfold get_value. by rewrite all_args_spec_binding, Hv.
  - intros h. by rewrite call_new_f, Hr.
Qed.

Lemma repeated_placeholder_same_value_witness :
  resolve_call [VArg _0_; VInt 2] (kw [("a"%string, VArg _0_); ("b"%string, VArg _0_)])
    [VInt 145] ∅ =
    Return ([VInt 145; VInt 2], kw [("a"%string, VInt 145); ("b"%string, VInt 145)]) ∧
  captured _0_ [VArg _0_; VInt 2] (kw [("a"%string, VArg _0_); ("b"%string, VArg _0_)]) ∧
  ∃ v, spec_binding [VInt 145] ∅ (index _0_) = Some v ∧
       (∀ i, [VArg _0_; VInt 2] !! i = Some (VArg _0_) →
             [VInt 145; VInt 2] !! i = Some v) ∧
       (∀ s, kw [("a"%string, VArg _0_); ("b"%string, VArg _0_)] !! s = Some (VArg _0_) →
             kw [("a"%string, VInt 145); ("b"%string, VInt 145)] !! s = Some v) ∧
       (∀ h, call py_target
               (NewF (Prim "f") [VArg _0_; VInt 2]
                  (kw [("a"%string, VArg _0_); ("b"%string, VArg _0_)]))
               [VInt 145] ∅ h =
             call py_target (Prim "f") [VInt 145; VInt 2]
               (kw [("a"%string, VInt 145); ("b"%string, VInt 145)]) h).
Proof.
  assert (resolve_call [VArg _0_; VInt 2]
            (kw [("a"%string, VArg _0_); ("b"%string, VArg _0_)]) [VInt 145] ∅ =
          Return ([VInt 145; VInt 2],
                  kw [("a"%string, VInt 145); ("b"%string, VInt 145)])) as Hr.
  { reflexivity. }
  assert (captured _0_ [VArg _0_; VInt 2]
            (kw [("a"%string, VArg _0_); ("b"%string, VArg _0_)])) as Hcap.
  { left. by left. }
  split; [exact Hr |]. split; [exact Hcap |].
  exact (proj1 repeated_placeholder_same_value py_target (Prim "f") _ _ _ _ _ _ _
           Hr Hcap).
Defined.

(** * Two rounds of rebinding *)

Lemma call_verbose_closure target f a b h :
  call target (verbose_closure f) []
    (list_to_map [("base"%string, a); ("exponent"%string, b)]) h =
  call target f [a; b] ∅ h.
Proof. unfold verbose_closure. rewrite call_new_f. reflexivity. Qed.

Lemma call_again_closure target f a b h :
  call target (again_closure f) [a; b] ∅ h = call target f [a; b] ∅ h.
Proof.
  unfold again_closure. rewrite call_new_f.
  assert (resolve_call []
            (list_to_map [("base"%string, VArg _0_); ("exponent"%string, VArg _1_)])
            [a; b] ∅ =
          Return ([], list_to_map [("base"%string, a); ("exponent"%string, b)]))
    as -> by reflexivity.
  apply call_verbose_closure.
Qed.

(** C6.  For [power(a, b) = a ** b] decorated: the call with
    [_kw_('base'), _kw_('exponent')] returns a callable; this one called
    with [base=_0_, exponent=_1_] returns a callable; and this one called
    on [(3, 2)] returns [9], which is [power(3, 2)], with the one call
    [power(3, 2)] of the target.  The same holds for every function and
    every two arguments that are not placeholders. *)
Theorem rebinding_round_trip :
  then_call py_target
    (then_call py_target
       (call py_target (autopartial (Prim "power"))
          [VArg (_kw_ "base"); VArg (_kw_ "exponent")] ∅ [])
       [] (kw [("base"%string, VArg _0_); ("exponent"%string, VArg _1_)]))
    [VInt 3; VInt 2] ∅ =
    (Return (VInt 9), [("power"%string, [VInt 3; VInt 2], ∅)]) ∧
  call py_target (Prim "power") [VInt 3; VInt 2] ∅ [] =
    (Return (VInt 9), [("power"%string, [VInt 3; VInt 2], ∅)]) ∧
  ∀ target f h,
    call target (autopartial f) [VArg (_kw_ "base"); VArg (_kw_ "exponent")] ∅ h =
      (Return (VFun (autopartial (verbose_closure f))), h) ∧
    call target (autopartial (verbose_closure f)) []
         (kw [("base"%string, VArg _0_); ("exponent"%string, VArg _1_)]) h =
      (Return (VFun (autopartial (again_closure f))), h) ∧
    ∀ a b, ¬ is_placeholder a → ¬ is_placeholder b →
      call target (autopartial (again_closure f)) [a; b] ∅ h =
      call target f [a; b] ∅ h.
Proof.
  split; [reflexivity |]. split; [reflexivity |].
  intros target f h. split; [reflexivity |]. split; [reflexivity |].
  intros a b Ha Hb.
  rewrite call_autopartial_concrete.
  - apply call_again_closure.
  - split; [by repeat constructor | apply map_Forall_empty].
Qed.

Lemma rebinding_round_trip_witness :
  ¬ is_placeholder (VInt 3) ∧ ¬ is_placeholder (VInt 2) ∧
  call py_target (autopartial (again_closure (Prim "power"))) [VInt 3; VInt 2] ∅ [] =
  call py_target (Prim "power") [VInt 3; VInt 2] ∅ [].
Proof.
  assert (¬ is_placeholder (VInt 3)) as H3 by (intros [a Ha]; discriminate Ha).
  assert (¬ is_placeholder (VInt 2)) as H2 by (intros [a Ha]; discriminate Ha).
  split; [exact H3 |]. split; [exact H2 |].
  exact (proj2 (proj2 (proj2 (proj2 rebinding_round_trip) py_target (Prim "power") []))
           (VInt 3) (VInt 2) H3 H2).
Defined.

(** * Arguments that no placeholder looks up *)

(** C10.  A decorated [new_f] called with arguments none of which is a
    placeholder either calls the underlying function, on as many
    positional arguments as were captured and on the captured keyword
    names, or raises the [KeyError] of a captured placeholder that the
    call does not supply.  Another such call which supplies the same
    values for the keys of the captured placeholders does the same,
    whatever else it supplies; so when the first call supplies every
    captured placeholder, additional positional and keyword arguments
    change nothing. *)
Theorem unused_arguments_ignored target f orig_args orig_kwargs args kwargs :
  concrete args kwargs →
  ((∃ new_args new_kwargs,
      (∀ h, call target (autopartial (NewF f orig_args orig_kwargs)) args kwargs h =
            call target f new_args new_kwargs h) ∧
      length new_args = length orig_args ∧
      dom new_kwargs = dom orig_kwargs) ∨
   (∃ a, captured a orig_args orig_kwargs ∧ ¬ covered args kwargs (index a) ∧
         ∀ h, call target (autopartial (NewF f orig_args orig_kwargs)) args kwargs h =
              (Raise (KeyError (index a)), h))) ∧
  (∀ args' kwargs' h,
     concrete args' kwargs' →
     (∀ a, captured a orig_args orig_kwargs →
           spec_binding args' kwargs' (index a) = spec_binding args kwargs (index a)) →
     call target (autopartial (NewF f orig_args orig_kwargs)) args' kwargs' h =
     call target (autopartial (NewF f orig_args orig_kwargs)) args kwargs h) ∧
  (∀ extra_args extra_kwargs h,
     concrete (args ++ extra_args) (kwargs ∪ extra_kwargs) →
     (∀ a, captured a orig_args orig_kwargs → covered args kwargs (index a)) →
     call target (autopartial (NewF f orig_args orig_kwargs))
          (args ++ extra_args) (kwargs ∪ extra_kwargs) h =
     call target (autopartial (NewF f orig_args orig_kwargs)) args kwargs h).
Proof.
  intros Hc.
  assert (∀ args' kwargs' h,
     concrete args' kwargs' →
     (∀ a, captured a orig_args orig_kwargs →
           spec_binding args' kwargs' (index a) = spec_binding args kwargs (index a)) →
     call target (autopartial (NewF f orig_args orig_kwargs)) args' kwargs' h =
     call target (autopartial (NewF f orig_args orig_kwargs)) args kwargs h) as Hagree.
  { intros args' kwargs' h Hc' Hsame.
    rewrite !call_deferred_concrete by done.
    by rewrite (resolve_call_agree _ _ args kwargs args' kwargs'). }
  split; [|split].
  - destruct (resolve_call orig_args orig_kwargs args kwargs) as [[na nk]|e] eqn:Hr.
    + left. exists na, nk. split; [|split].
      * intros h. by rewrite call_deferred_concrete, Hr.
      * apply resolve_call_Return in Hr as [Hl _]. by eapply list_comp_length.
      * apply resolve_call_Return in Hr as [_ Hd]. by eapply dict_comp_dom.
    + right. pose proof Hr as (a & Hcap & Hnot & ->)%resolve_call_Raise.
      exists a. split; [done |]. split; [done |].
      intros h. by rewrite call_deferred_concrete, Hr.
  - exact Hagree.
  - intros extra_args extra_kwargs h Hc' Hcov. apply Hagree; [done |].
    intros a Hcap. apply spec_binding_extra. by apply Hcov.
Qed.

Lemma unused_arguments_ignored_witness :
  concrete [VInt 145; VInt 543] (kw [("s"%string, VInt 444)]) ∧
  call py_target
    (autopartial (NewF (Prim "f") [VInt 1; VArg _0_] (kw [("a"%string, VInt 3)])))
    ([VInt 145; VInt 543] ++ [VInt 7; VInt 8])
    (kw [("s"%string, VInt 444)] ∪ kw [("t"%string, VInt 9)]) [] =
  call py_target
    (autopartial (NewF (Prim "f") [VInt 1; VArg _0_] (kw [("a"%string, VInt 3)])))
    [VInt 145; VInt 543] (kw [("s"%string, VInt 444)]) [] ∧
  call py_target
    (autopartial (NewF (Prim "f") [VInt 1; VArg _0_] (kw [("a"%string, VInt 3)])))
    [VInt 145; VInt 543] (kw [("s"%string, VInt 444)]) [] =
  (Return (VTuple [VTuple [VInt 1; VInt 145]; VDict (kw [("a"%string, VInt 3)])]),
   [("f"%string, [VInt 1; VInt 145], kw [("a"%string, VInt 3)])]).
Proof.
  assert (concrete [VInt 145; VInt 543] (kw [("s"%string, VInt 444)])) as Hc.
  { apply has_placeholder_false. reflexivity. }
  split; [exact Hc |]. split; [|reflexivity].
  apply (proj2 (proj2 (unused_arguments_ignored py_target (Prim "f")
           [VInt 1; VArg _0_] (kw [("a"%string, VInt 3)]) _ _ Hc))).
  - apply has_placeholder_false. reflexivity.
  - intros a [Hin|[s Hs]].
    + apply list_elem_of_In in Hin. simpl in Hin.
      destruct Hin as [Ha|[Ha|[]]]; [discriminate Ha |].
      injection Ha as <-. simpl. lia.
    + exfalso. destruct (decide (s = "a"%string)) as [->|Hne].
      * vm_compute in Hs. discriminate Hs.
      * unfold kw in Hs. simpl in Hs.
        rewrite lookup_insert_ne in Hs by done. rewrite lookup_empty in Hs.
        discriminate Hs.
Defined.

(** * The calls over the store *)

Module ObjectsFacts.
Import Objects.

Lemma alloc_fresh (σ : store) o : σ !! (alloc σ o).1 = None.
Proof. simpl. apply not_elem_of_dom. apply is_fresh. Qed.

Lemma keeps_subseteq Q (σ σ' : store) : σ ⊆ σ' → keeps Q σ σ'.
Proof. intros Hsub l o _ Hl. by eapply lookup_weaken. Qed.

Lemma keeps_trans Q (σ1 σ2 σ3 : store) :
  keeps Q σ1 σ2 → keeps Q σ2 σ3 → keeps Q σ1 σ3.
Proof. intros H12 H23 l o HQ Hl. apply H23; [done |]. by apply H12. Qed.

Lemma wf_callable_keeps Q (σ σ' : store) c :
  keeps Q σ σ' → wf_callable Q σ c → wf_callable Q σ' c.
Proof.
  intros Hk. induction c as [name|f IH|f IH la lk]; simpl; [done | done |].
  intros ((oa & Hoa & Qoa) & (ok & Hok & Qok) & Hf).
  split; [exists oa; split; [by apply Hk | done] |].
  split; [exists ok; split; [by apply Hk | done] |].
  by apply IH.
Qed.

(** The statements of [new_f] before the call of [f]: they create
    objects and change none that was there; then [f] is called on the
    resolved arguments, or the [KeyError] is raised. *)
Lemma new_f_steps call_f la lk args kwargs (σ : store) h oa ok :
  σ !! la = Some (OTuple oa) →
  σ !! lk = Some (OKwargs ok) →
  ∃ σ' : store,
    σ ⊆ σ' ∧
    new_f call_f la lk args kwargs σ h =
    match resolve_call oa ok args kwargs with
    | Return (new_args, new_kwargs) => call_f new_args new_kwargs σ' h
    | Raise e => Some (Raise e, σ', h)
    end.
Proof.
  intros Hoa Hok.
  unfold new_f, resolve_call, read_tuple, read_list, read_kwargs, read_dict,
    update_at.
  simpl.
  set (la' := fresh (dom σ)).
  set (σa := <[la' := OTuple args]> σ).
  assert (σ !! la' = None) as Hla' by apply (alloc_fresh σ (OTuple args)).
  assert (σ ⊆ σa) as Hsuba by by apply insert_subseteq.
  set (lb := fresh (dom σa)).
  set (σb := <[lb := OKwargs kwargs]> σa).
  assert (σa !! lb = None) as Hlb by apply (alloc_fresh σa (OKwargs kwargs)).
  assert (σa ⊆ σb) as Hsubb by by apply insert_subseteq.
  assert (σb !! lb = Some (OKwargs kwargs)) as -> by apply lookup_insert_eq.
  simpl.
  set (l1 := fresh (dom σb)).
  set (σ1 := <[l1 := ODict (copy kwargs)]> σb).
  assert (σb !! l1 = None) as Hl1 by apply (alloc_fresh σb (ODict (copy kwargs))).
  assert (σb ⊆ σ1) as Hsub1 by by apply insert_subseteq.
  assert (σ ⊆ σ1) as Hsub01 by (etrans; [exact Hsuba |]; by etrans).
  assert (σ1 !! la' = Some (OTuple args)) as ->.
  { eapply lookup_weaken; [|exact Hsub1].
    eapply lookup_weaken; [|exact Hsubb]. apply lookup_insert_eq. }
  simpl.
  assert (σ1 !! l1 = Some (ODict (copy kwargs))) as -> by apply lookup_insert_eq.
  simpl.
  set (σ2 := <[l1 := ODict (update (copy kwargs) (enumerate args))]> σ1).
  assert (σb ⊆ σ2) as Hsubb2.
  { unfold σ2, σ1. rewrite insert_insert_eq. by apply insert_subseteq. }
  assert (σ ⊆ σ2) as Hsub2 by (etrans; [exact Hsuba |]; by etrans).
  assert (σ2 !! l1 = Some (ODict (update (copy kwargs) (enumerate args)))) as Hσ2
    by apply lookup_insert_eq.
  assert (σ2 !! la = Some (OTuple oa)) as -> by by eapply lookup_weaken.
  simpl. rewrite Hσ2. simpl.
  destruct (list_comp _ oa) as [vs|e] eqn:Hl; simpl.
  2:{ by exists σ2. }
  set (l3 := fresh (dom σ2)).
  set (σ3 := <[l3 := OList vs]> σ2).
  assert (σ2 !! l3 = None) as Hl3 by apply (alloc_fresh σ2 (OList vs)).
  assert (σ2 ⊆ σ3) as Hsub3 by by apply insert_subseteq.
  assert (σ3 !! lk = Some (OKwargs ok)) as ->.
  { eapply lookup_weaken; [exact Hok |]. by etrans. }
  simpl.
  assert (σ3 !! l1 = Some (ODict (update (copy kwargs) (enumerate args)))) as ->
    by by eapply lookup_weaken.
  simpl.
  destruct (dict_comp _ ok) as [kvs|e] eqn:Hd; simpl.
  2:{ exists σ3. split; [by etrans | done]. }
  set (l4 := fresh (dom σ3)).
  set (σ4 := <[l4 := OKwargs kvs]> σ3).
  assert (σ3 !! l4 = None) as Hl4 by apply (alloc_fresh σ3 (OKwargs kvs)).
  assert (σ3 ⊆ σ4) as Hsub4 by by apply insert_subseteq.
  assert (σ4 !! l3 = Some (OList vs)) as ->.
  { eapply lookup_weaken; [|exact Hsub4]. apply lookup_insert_eq. }
  simpl.
  assert (σ4 !! l4 = Some (OKwargs kvs)) as -> by apply lookup_insert_eq.
  simpl.
  exists σ4. split; [|done].
  etrans; [exact Hsub2 |]. by etrans.
Qed.

(** The statements of [wrapped] before the call of [f]. *)
Lemma wrapped_steps call_f f args kwargs (σ : store) h :
  ∃ (σ' : store) la lk,
    σ ⊆ σ' ∧
    σ !! la = None ∧ σ !! lk = None ∧
    σ' !! la = Some (OTuple args) ∧ σ' !! lk = Some (OKwargs kwargs) ∧
    wrapped call_f f args kwargs σ h =
    if has_placeholder args kwargs
    then Some (Return (SFun (autopartial (SNewF f la lk))), σ', h)
    else call_f args kwargs σ' h.
Proof.
  unfold wrapped, read_tuple, read_kwargs. simpl.
  set (l1 := fresh (dom σ)).
  set (σ1 := <[l1 := OTuple args]> σ).
  assert (σ !! l1 = None) as Hl1 by apply (alloc_fresh σ (OTuple args)).
  assert (σ ⊆ σ1) as Hsub1 by by apply insert_subseteq.
  set (l2 := fresh (dom σ1)).
  set (σ2 := <[l2 := OKwargs kwargs]> σ1).
  assert (σ1 !! l2 = None) as Hl2 by apply (alloc_fresh σ1 (OKwargs kwargs)).
  assert (σ1 ⊆ σ2) as Hsub2 by by apply insert_subseteq.
  assert (σ2 !! l1 = Some (OTuple args)) as Hσ21.
  { eapply lookup_weaken; [|exact Hsub2]. apply lookup_insert_eq. }
  assert (σ2 !! l2 = Some (OKwargs kwargs)) as Hσ22 by apply lookup_insert_eq.
  rewrite Hσ21. simpl. rewrite Hσ22. simpl.
  exists σ2, l1, l2. split; [by etrans |].
  split; [done |]. split; [|done].
  destruct (σ !! l2) as [o|] eqn:Ho; [|done].
  apply (lookup_weaken _ _ _ _ Ho) in Hsub1. congruence.
Qed.

Lemma call_wrapped_eq target f args kwargs (σ : store) h :
  call target (autopartial f) args kwargs σ h =
  wrapped (call target f) f args kwargs σ h.
Proof. done. Qed.

Lemma call_new_f_eq target f la lk args kwargs (σ : store) h :
  call target (SNewF f la lk) args kwargs σ h =
  new_f (call target f) la lk args kwargs σ h.
Proof. done. Qed.

(** Every call ends, and an object which the targets leave as it is, is
    left as it is by the call. *)
Lemma call_keeps target Q c args kwargs (σ : store) h :
  target_keeps target Q →
  wf_callable Q σ c →
  ∃ r (σ' : store) h',
    call target c args kwargs σ h = Some (r, σ', h') ∧ keeps Q σ σ'.
Proof.
  intros Ht. revert args kwargs σ h.
  induction c as [name|f IH|f IH la lk]; intros args kwargs σ h Hwf.
  - simpl. unfold call_target.
    destruct (target name args kwargs σ h) as [r σ'] eqn:Hrun.
    exists r, σ', (h ++ [(name, args, kwargs)]). split; [done |].
    pose proof (Ht name args kwargs σ h) as Hk. by rewrite Hrun in Hk.
  - simpl in Hwf. simpl.
    destruct (wrapped_steps (call target f) f args kwargs σ h)
      as (σ2 & l1 & l2 & Hsub & _ & _ & _ & _ & ->).
    destruct (has_placeholder args kwargs).
    + eexists _, _, _. split; [done |]. by apply keeps_subseteq.
    + destruct (IH args kwargs σ2 h) as (r & σ' & h' & Hcall & Hk).
      { eapply wf_callable_keeps; [|exact Hwf]. by apply keeps_subseteq. }
      exists r, σ', h'. split; [done |].
      eapply keeps_trans; [|exact Hk]. by apply keeps_subseteq.
  - simpl in Hwf. destruct Hwf as ((oa & Hoa & _) & (ok & Hok & _) & Hwf).
    simpl.
    destruct (new_f_steps (call target f) la lk args kwargs σ h oa ok Hoa Hok)
      as (σ4 & Hsub & ->).
    destruct (resolve_call oa ok args kwargs) as [[na nk]|e].
    + destruct (IH na nk σ4 h) as (r & σ' & h' & Hcall & Hk).
      { eapply wf_callable_keeps; [|exact Hwf]. by apply keeps_subseteq. }
      exists r, σ', h'. split; [done |].
      eapply keeps_trans; [|exact Hk]. by apply keeps_subseteq.
    + eexists _, _, _. split; [done |]. by apply keeps_subseteq.
Qed.

Lemma append_target_keeps : target_keeps append_target (fun o => ¬ is_list o).
Proof.
  intros name args kwargs σ h l o Hq Hl. unfold append_target.
  destruct (bind_two "lst" "x" args kwargs) as [[[] x]|]; simpl; try done.
  destruct (σ !! l0) as [[]|] eqn:Hl0; simpl; try done.
  rewrite lookup_insert_ne; [done |].
  intros ->. rewrite Hl in Hl0. injection Hl0 as ->.
  apply Hq. by eexists.
Qed.

(** C8, amended.  A call of a deferred callable ends, and it leaves as it
    is every object which the targets leave as they are: its own
    statements create objects and change none that was there.  So when
    the targets leave the captured tuple and the captured dictionary as
    they are, these hold the same elements after the call, and the
    callable can be called again.  When the callable is over a target and
    the call has no placeholder, the target is called in a store in
    which every object is as it was, on the resolved arguments, in which a
    captured argument that is not a placeholder is passed as it is (an
    object by reference); the store after the call is the one the target
    leaves. *)
Theorem deferred_call_keeps_objects target Q f la lk oa ok args kwargs
    (σ : store) h :
  target_keeps target Q →
  σ !! la = Some (OTuple oa) → Q (OTuple oa) →
  σ !! lk = Some (OKwargs ok) → Q (OKwargs ok) →
  wf_callable Q σ f →
  ∃ r (σ' : store) h',
    call target (autopartial (SNewF f la lk)) args kwargs σ h = Some (r, σ', h') ∧
    keeps Q σ σ' ∧
    σ' !! la = Some (OTuple oa) ∧
    σ' !! lk = Some (OKwargs ok) ∧
    (∀ args2 kwargs2,
       ∃ r2 (σ2 : store) h2,
         call target (autopartial (SNewF f la lk)) args2 kwargs2 σ' h' =
           Some (r2, σ2, h2) ∧
         σ2 !! la = Some (OTuple oa) ∧
         σ2 !! lk = Some (OKwargs ok)) ∧
    (∀ name,
       f = SPrim name →
       has_placeholder args kwargs = false →
       match resolve_call oa ok args kwargs with
       | Return (new_args, new_kwargs) =>
           ∃ σ0 : store,
             σ ⊆ σ0 ∧
             (r, σ') = target name new_args new_kwargs σ0 h ∧
             h' = h ++ [(name, new_args, new_kwargs)]
       | Raise e => r = Raise e ∧ σ ⊆ σ' ∧ h' = h
       end).
Proof.
  intros Ht Hoa Qoa Hok Qok Hwf.
  assert (∀ (σ : store),
            σ !! la = Some (OTuple oa) → σ !! lk = Some (OKwargs ok) →
            wf_callable Q σ f →
            wf_callable Q σ (autopartial (SNewF f la lk))) as Hwfc.
  { intros σ0 H1 H2 H3. simpl. eauto 10. }
  destruct (call_keeps target Q (autopartial (SNewF f la lk)) args kwargs σ h Ht)
    as (r & σ' & h' & Hcall & Hk); [by apply Hwfc |].
  exists r, σ', h'.
  assert (σ' !! la = Some (OTuple oa)) as Hoa' by by apply Hk.
  assert (σ' !! lk = Some (OKwargs ok)) as Hok' by by apply Hk.
  split; [done |]. split; [done |]. split; [done |]. split; [done |]. split.
  - intros args2 kwargs2.
    destruct (call_keeps target Q (autopartial (SNewF f la lk)) args2 kwargs2 σ' h' Ht)
      as (r2 & σ2 & h2 & Hcall2 & Hk2).
    { apply Hwfc; [done | done |]. by eapply wf_callable_keeps. }
    exists r2, σ2, h2. split; [done |]. split; by apply Hk2.
  - intros name -> Hp. rewrite call_wrapped_eq in Hcall.
    destruct (wrapped_steps (call target (SNewF (SPrim name) la lk))
                (SNewF (SPrim name) la lk) args kwargs σ h)
      as (σ2 & l1 & l2 & Hsub & _ & _ & _ & _ & Hw).
    rewrite Hw, Hp, call_new_f_eq in Hcall.
    destruct (new_f_steps (call target (SPrim name)) la lk args kwargs σ2 h oa ok)
      as (σ4 & Hsub4 & Hn).
    { eapply lookup_weaken; [exact Hoa | exact Hsub]. }
    { eapply lookup_weaken; [exact Hok | exact Hsub]. }
    rewrite Hn in Hcall.
    destruct (resolve_call oa ok args kwargs) as [[na nk]|e].
    + simpl in Hcall. unfold call_target in Hcall.
      destruct (target name na nk σ4 h) as [r0 σ0] eqn:Hrun.
      injection Hcall as <- <- <-.
      exists σ4. split; [by etrans |]. split; done.
    + injection Hcall as <- <- <-. split; [done |]. split; [by etrans | done].
Qed.

Lemma deferred_call_keeps_objects_witness :
  ∃ r (σ' : store) h',
    call append_target example_nf [SInt 1] ∅ example_store [] = Some (r, σ', h') ∧
    keeps (fun o => ¬ is_list o) example_store σ' ∧
    σ' !! 2%positive = Some (OTuple [SObj 1%positive; SArg _0_]) ∧
    σ' !! 3%positive = Some (OKwargs ∅) ∧
    (∀ args2 kwargs2,
       ∃ r2 (σ2 : store) h2,
         call append_target example_nf args2 kwargs2 σ' h' = Some (r2, σ2, h2) ∧
         σ2 !! 2%positive = Some (OTuple [SObj 1%positive; SArg _0_]) ∧
         σ2 !! 3%positive = Some (OKwargs ∅)) ∧
    (∀ name,
       SPrim "g" = SPrim name →
       has_placeholder [SInt 1] ∅ = false →
       match resolve_call [SObj 1%positive; SArg _0_] ∅ [SInt 1] ∅ with
       | Return (new_args, new_kwargs) =>
           ∃ σ0 : store,
             example_store ⊆ σ0 ∧
             (r, σ') = append_target name new_args new_kwargs σ0 [] ∧
             h' = [] ++ [(name, new_args, new_kwargs)]
       | Raise e => r = Raise e ∧ example_store ⊆ σ' ∧ h' = []
       end).
Proof.
  apply (deferred_call_keeps_objects append_target (fun o => ¬ is_list o)
           (SPrim "g") 2%positive 3%positive [SObj 1%positive; SArg _0_] ∅
           [SInt 1] ∅ example_store []).
  - exact append_target_keeps.
  - reflexivity.
  - intros [vs Hvs]. discriminate Hvs.
  - reflexivity.
  - intros [vs Hvs]. discriminate Hvs.
  - exact I.
Defined.

(** C8 as it is stated fails for a target that changes an argument in
    place: [nf = g(lst, _0_)] for [def g(lst, x): lst.append(x); return
    lst] and an empty list [lst].  The call [nf(1)] leaves the captured
    list as [[1]], and [nf(2)] after it gives [[1, 2]], where [nf(2)] as
    the first call gives [[2]]. *)
Lemma mutating_target_counterexample :
  example_store !! 2%positive = Some (OTuple [SObj 1%positive; SArg _0_]) ∧
  example_store !! 1%positive = Some (OList []) ∧
  result_after example_first_run = Some (Return (SObj 1%positive)) ∧
  store_after example_first_run !! 2%positive =
    Some (OTuple [SObj 1%positive; SArg _0_]) ∧
  store_after example_first_run !! 1%positive = Some (OList [SInt 1]) ∧
  result_after example_second_run = Some (Return (SObj 1%positive)) ∧
  store_after example_second_run !! 1%positive = Some (OList [SInt 1; SInt 2]) ∧
  result_after example_second_alone = Some (Return (SObj 1%positive)) ∧
  store_after example_second_alone !! 1%positive = Some (OList [SInt 2]).
Proof. vm_compute. repeat split. Qed.

End ObjectsFacts.

(** * Further properties of the decorator *)

(** ** What a lookup in the binding dictionary gives *)

(** The placeholder lookups of one call.  A position below the number of
    positional arguments gives that argument; any other integer, a
    negative one included, is a [KeyError] (the lookup is in a
    dictionary, so there is no indexing from the end); a name gives the
    keyword argument of that name or a [KeyError], whatever the positional
    arguments are. *)
Theorem get_value_of_call args kwargs :
  (∀ (n : nat) v, args !! n = Some v →
     get_value (mk_Arg (KInt (Z.of_nat n))) (all_args_of args kwargs) = Return v) ∧
  (∀ i, i < 0 ∨ Z.of_nat (length args) ≤ i →
     get_value (mk_Arg (KInt i)) (all_args_of args kwargs) = Raise (KeyError (KInt i))) ∧
  (∀ s, get_value (_kw_ s) (all_args_of args kwargs) =
        match kwargs !! s with
        | Some v => Return v
        | None => Raise (KeyError (KStr s))
        end).
Proof.
  split; [|split].
  - intros n v Hn. unfold get_value. simpl.
    by rewrite all_args_lookup_nat, Hn.
  - intros i Hi. unfold get_value. simpl.
    rewrite all_args_lookup_int. case_decide; [|done].
    rewrite lookup_ge_None_2; [done | lia].
  - intros s. unfold get_value. simpl. by rewrite all_args_lookup_str.
Qed.

(** ** Placeholders never reach a target through a concrete call *)

Lemma resolve_concrete_result args kwargs orig r :
  concrete args kwargs →
  resolve (all_args_of args kwargs) orig = Return r →
  ¬ is_placeholder r.
Proof.
  intros [Hargs Hkw] Hr.
  destruct (decide (isinstance_Arg orig = true)) as [Hp|Hp].
  - apply isinstance_Arg_true in Hp as [a ->].
    rewrite resolve_placeholder, all_args_spec_binding in Hr.
    destruct (spec_binding args kwargs (index a)) as [v|] eqn:Hb; [|done].
    injection Hr as ->.
    destruct (index a) as [i|s]; simpl in Hb.
    + case_decide; [|done].
      rewrite Forall_forall in Hargs. apply Hargs.
      by eapply list_elem_of_lookup_2.
    + by apply (Hkw s).
  - apply not_true_is_false, isinstance_Arg_false in Hp.
    rewrite resolve_concrete in Hr by done. by injection Hr as <-.
Qed.

(** The arguments resolved from a call without placeholder are without
    placeholder. *)
Lemma resolve_call_concrete orig_args orig_kwargs args kwargs new_args new_kwargs :
  concrete args kwargs →
  resolve_call orig_args orig_kwargs args kwargs = Return (new_args, new_kwargs) →
  concrete new_args new_kwargs.
Proof.
  intros Hc [Hl Hd]%resolve_call_Return. split.
  - apply list_comp_Return in Hl.
    apply Forall_forall. intros r Hin.
    apply list_elem_of_lookup in Hin as [i Hi].
    destruct (Forall2_lookup_r _ _ _ _ _ Hl Hi) as (o & _ & Ho).
    by eapply resolve_concrete_result.
  - intros s r Hs.
    destruct (dict_comp_Return _ _ _ Hd s) as [Hm _]. rewrite Hs in Hm.
    destruct (orig_kwargs !! s) as [o|]; simpl in Hm; [|done].
    destruct (resolve (all_args_of args kwargs) o) as [r'|] eqn:Ho; simpl in Hm;
      [|done].
    injection Hm as ->. by eapply resolve_concrete_result.
Qed.

(** Any call of any callable adds at most one target call to the
    history; and when the call has no placeholder among its arguments,
    neither has the target call it makes, however many closures [wrapped]
    and [new_f] lie between. *)
Theorem target_called_at_most_once target c args kwargs h :
  ∃ ext,
    (call target c args kwargs h).2 = h ++ ext ∧
    (length ext ≤ 1)%nat ∧
    (concrete args kwargs → Forall (fun inv => concrete inv.1.2 inv.2) ext).
Proof.
  revert args kwargs.
  induction c as [name|f IH|f IH oa ok]; intros args kwargs.
  - exists [(name, args, kwargs)]. split; [done |]. split; [done |].
    intros Hc. by constructor.
  - simpl. unfold wrapped. destruct (has_placeholder args kwargs).
    + exists []. simpl. rewrite app_nil_r. split; [done |]. split; [lia | done].
    + apply IH.
  - rewrite call_new_f.
    destruct (resolve_call oa ok args kwargs) as [[na nk]|e] eqn:Hr.
    + destruct (IH na nk) as (ext & Hext & Hlen & Hconc).
      exists ext. split; [done |]. split; [done |].
      intros Hc. apply Hconc. by eapply resolve_call_concrete.
    + exists []. simpl. rewrite app_nil_r. split; [done |]. split; [lia | done].
Qed.

(** ** A deferred call followed by a call is the direct call on the
    substituted arguments *)

(** For a decorated function [g]: when [g] is called with a placeholder
    among [args1], [kwargs1] and the callable it returns is called on
    arguments without placeholder, the outcome is that of [g] called
    directly on [args1], [kwargs1] with every placeholder replaced by its
    binding in the second call. *)
Theorem deferred_then_called_is_substituted target c
    args1 kwargs1 args2 kwargs2 ra rk h :
  contains_placeholder args1 kwargs1 →
  concrete args2 kwargs2 →
  spec_resolve_args (spec_binding args2 kwargs2) args1 = Some ra →
  spec_resolve_kwargs (spec_binding args2 kwargs2) kwargs1 = Some rk →
  then_call target (call target (autopartial c) args1 kwargs1 h) args2 kwargs2 =
  call target (autopartial c) ra rk h.
Proof.
  intros Hp Hc Hra Hrk.
  assert (resolve_call args1 kwargs1 args2 kwargs2 = Return (ra, rk)) as Hr
    by by apply resolve_call_spec.
  rewrite call_autopartial_placeholder, then_call_callable by done.
  rewrite call_deferred_concrete, Hr by done.
  symmetry. apply call_autopartial_concrete.
  by eapply resolve_call_concrete.
Qed.

Lemma deferred_then_called_is_substituted_witness :
  contains_placeholder [VArg _0_; VInt 3] ∅ ∧
  concrete [VInt 145] ∅ ∧
  then_call py_target
    (call py_target
       (autopartial (NewF (Prim "f") [VArg _0_; VInt 2]
                       (kw [("a"%string, VArg _1_); ("b"%string, VInt 4)])))
       [VArg _0_; VInt 3] ∅ [])
    [VInt 145] ∅ =
  call py_target
    (autopartial (NewF (Prim "f") [VArg _0_; VInt 2]
                    (kw [("a"%string, VArg _1_); ("b"%string, VInt 4)])))
    [VInt 145; VInt 3] ∅ [].
Proof.
  assert (contains_placeholder [VArg _0_; VInt 3] ∅) as Hp.
  { apply contains_placeholder_has. reflexivity. }
  assert (concrete [VInt 145] ∅) as Hc.
  { apply has_placeholder_false. reflexivity. }
  split; [exact Hp |]. split; [exact Hc |].
  apply (deferred_then_called_is_substituted py_target _ _ _ _ _ _ ∅ [] Hp Hc).
  - reflexivity.
  - apply dict_comp_resolve_spec. reflexivity.
Defined.

Lemma target_called_at_most_once_witness :
  concrete [VInt 145] ∅ ∧
  ∃ ext,
    (call py_target
       (autopartial (NewF (NewF (Prim "f") [VArg _0_; VInt 2] ∅) [VArg _0_] ∅))
       [VInt 145] ∅ []).2 = [] ++ ext ∧
    (length ext ≤ 1)%nat ∧
    Forall (fun inv => concrete inv.1.2 inv.2) ext.
Proof.
  assert (concrete [VInt 145] ∅) as Hc.
  { apply has_placeholder_false. reflexivity. }
  split; [exact Hc |].
  destruct (target_called_at_most_once py_target
              (autopartial (NewF (NewF (Prim "f") [VArg _0_; VInt 2] ∅) [VArg _0_] ∅))
              [VInt 145] ∅ []) as (ext & Hext & Hlen & Hconc).
  exists ext. split; [exact Hext |]. split; [exact Hlen | exact (Hconc Hc)].
Defined.

(** ** Partial application *)

Lemma list_comp_app {A B} (g : A → result B) xs ys xs' ys' :
  list_comp g xs = Return xs' →
  list_comp g ys = Return ys' →
  list_comp g (xs ++ ys) = Return (xs' ++ ys').
Proof.
  rewrite !list_comp_Return. apply Forall2_app.
Qed.

Lemma list_comp_app_Raise {A B} (g : A → result B) xs xs' y ys e :
  list_comp g xs = Return xs' →
  g y = Raise e →
  list_comp g (xs ++ y :: ys) = Raise e.
Proof.
  revert xs'. induction xs as [|x xs IH]; intros xs'; simpl.
  - intros _ ->. done.
  - destruct (g x) as [x1|e1]; simpl; [|done].
    destruct (list_comp g xs) as [xs1|e1] eqn:Hxs; simpl; [|done].
    intros _ Hy. by rewrite (IH xs1).
Qed.

Lemma resolve_positional_placeholders args kwargs :
  list_comp (resolve (all_args_of args kwargs))
    (positional_placeholders (length args)) = Return args.
Proof.
  apply list_comp_Return. unfold positional_placeholders.
  apply Forall2_fmap_l. apply Forall2_same_length_lookup_2.
  - by rewrite length_seq.
  - intros i n v Hn Hv. apply lookup_seq in Hn as [-> _]. simpl.
    unfold get_value. simpl. by rewrite all_args_lookup_nat, Hv.
Qed.

Lemma resolve_named_placeholders args kwargs names vs :
  mapM (fun n => kwargs !! n) names = Some vs →
  list_comp (resolve (all_args_of args kwargs)) (named_placeholders names) =
  Return vs.
Proof.
  intros H%mapM_Some. apply list_comp_Return. unfold named_placeholders.
  apply Forall2_fmap_l. eapply Forall2_impl; [exact H |].
  intros n v Hn. simpl. unfold get_value. simpl.
  by rewrite all_args_lookup_str, Hn.
Qed.

(** As with [functools.partial]: a decorated function called on fixed
    leading arguments [vs] followed by [_0_, ..., _(m-1)_], and on fixed
    keyword arguments [kwargs0], returns a callable which, called on [m]
    arguments without placeholder, calls the function on [vs] followed by
    these arguments and on [kwargs0]; keyword arguments of the second
    call are not passed on. *)
Theorem partial_application target f vs kwargs0 args kwargs h :
  concrete vs kwargs0 →
  concrete args kwargs →
  args ≠ [] →
  then_call target
    (call target (autopartial f)
       (vs ++ positional_placeholders (length args)) kwargs0 h)
    args kwargs =
  call target f (vs ++ args) kwargs0 h.
Proof.
  intros [Hvs Hkw0] Hc Hne.
  rewrite call_autopartial_placeholder, then_call_callable.
  2:{ left. destruct args as [|v args]; [done |].
      exists (mk_Arg (KInt 0)). apply elem_of_app. right. by left. }
  rewrite call_deferred_concrete by done.
  assert (resolve_call (vs ++ positional_placeholders (length args)) kwargs0
            args kwargs = Return (vs ++ args, kwargs0)) as ->; [|done].
  apply resolve_call_Return. split.
  - apply list_comp_app.
    + by apply list_comp_resolve_concrete.
    + apply resolve_positional_placeholders.
  - by apply dict_comp_resolve_concrete.
Qed.

Lemma partial_application_witness :
  concrete [VInt 2] ∅ ∧ concrete [VInt 5] ∅ ∧ [VInt 5] ≠ [] ∧
  then_call py_target
    (call py_target (autopartial (Prim "power"))
       ([VInt 2] ++ positional_placeholders (length [VInt 5])) ∅ [])
    [VInt 5] ∅ =
  call py_target (Prim "power") ([VInt 2] ++ [VInt 5]) ∅ [].
Proof.
  assert (concrete [VInt 2] ∅) as Hc1.
  { apply has_placeholder_false. reflexivity. }
  assert (concrete [VInt 5] ∅) as Hc2.
  { apply has_placeholder_false. reflexivity. }
  assert ([VInt 5] ≠ []) as Hne by discriminate.
  split; [exact Hc1 |]. split; [exact Hc2 |]. split; [exact Hne |].
  exact (partial_application py_target (Prim "power") [VInt 2] ∅ [VInt 5] ∅ []
           Hc1 Hc2 Hne).
Defined.

(** From keywords to positions: a decorated function called on
    [_kw_(n)] for each name [n] of a list returns a callable which,
    called with keyword arguments without placeholder that supply every
    name of the list, calls the function on the values of these names as
    positional arguments, in the order of the list. *)
Theorem keywords_to_positions target f names kwargs vs h :
  names ≠ [] →
  concrete [] kwargs →
  mapM (fun n => kwargs !! n) names = Some vs →
  then_call target
    (call target (autopartial f) (named_placeholders names) ∅ h) [] kwargs =
  call target f vs ∅ h.
Proof.
  intros Hne Hc Hvs.
  rewrite call_autopartial_placeholder, then_call_callable.
  2:{ left. destruct names as [|n names]; [done |].
      exists (_kw_ n). by left. }
  rewrite call_deferred_concrete by done.
  assert (resolve_call (named_placeholders names) ∅ [] kwargs = Return (vs, ∅))
    as ->; [|done].
  apply resolve_call_Return. split.
  - by apply resolve_named_placeholders.
  - reflexivity.
Qed.

Lemma keywords_to_positions_witness :
  ["base"%string; "exponent"%string] ≠ [] ∧
  concrete [] (kw [("base"%string, VInt 3); ("exponent"%string, VInt 2)]) ∧
  mapM (fun n => kw [("base"%string, VInt 3); ("exponent"%string, VInt 2)] !! n)
    ["base"%string; "exponent"%string] = Some [VInt 3; VInt 2] ∧
  then_call py_target
    (call py_target (autopartial (Prim "power"))
       (named_placeholders ["base"%string; "exponent"%string]) ∅ [])
    [] (kw [("base"%string, VInt 3); ("exponent"%string, VInt 2)]) =
  call py_target (Prim "power") [VInt 3; VInt 2] ∅ [].
Proof.
  assert (["base"%string; "exponent"%string] ≠ []) as Hne by discriminate.
  assert (concrete [] (kw [("base"%string, VInt 3); ("exponent"%string, VInt 2)]))
    as Hc.
  { apply has_placeholder_false. reflexivity. }
  assert (mapM (fun n => kw [("base"%string, VInt 3); ("exponent"%string, VInt 2)] !! n)
            ["base"%string; "exponent"%string] = Some [VInt 3; VInt 2]) as Hvs.
  { reflexivity. }
  split; [exact Hne |]. split; [exact Hc |]. split; [exact Hvs |].
  exact (keywords_to_positions py_target (Prim "power") _ _ _ [] Hne Hc Hvs).
Defined.

(** ** Which missing binding is reported *)

(** The positional arguments are resolved first and from left to right:
    when the captured positional arguments are [pre ++ _Arg(k) :: post],
    the call supplies every placeholder of [pre] and does not supply [k],
    then the call raises [KeyError k], whatever is missing in [post] and
    among the captured keyword arguments, and calls no target. *)
Theorem first_missing_positional_is_reported target f pre a post orig_kwargs
    args kwargs h :
  concrete args kwargs →
  (∀ b, VArg b ∈ pre → covered args kwargs (index b)) →
  ¬ covered args kwargs (index a) →
  call target (autopartial (NewF f (pre ++ VArg a :: post) orig_kwargs))
       args kwargs h =
  (Raise (KeyError (index a)), h).
Proof.
  intros Hc Hpre Hnot.
  rewrite call_deferred_concrete by done.
  unfold resolve_call. simpl.
  destruct (list_comp (resolve (all_args_of args kwargs)) pre) as [pre'|e] eqn:Hl.
  - rewrite (list_comp_app_Raise _ pre pre' (VArg a) post (KeyError (index a)));
      [done | done |].
    rewrite resolve_placeholder.
    by apply all_args_not_covered in Hnot as ->.
  - exfalso. apply list_comp_Raise in Hl as (v & Hin & Hv).
    apply resolve_Raise in Hv as (b & -> & Hnone & _).
    apply all_args_not_covered in Hnone. by apply Hnone, Hpre.
Qed.

Lemma first_missing_positional_is_reported_witness :
  concrete [VInt 145] ∅ ∧
  (∀ b, VArg b ∈ [VArg _0_] → covered [VInt 145] ∅ (index b)) ∧
  ¬ covered [VInt 145] ∅ (index _2_) ∧
  call py_target
    (autopartial (NewF (Prim "f") ([VArg _0_] ++ VArg _2_ :: [VArg _1_])
                    (kw [("a"%string, VArg (_kw_ "q"))])))
    [VInt 145] ∅ [] =
  (Raise (KeyError (index _2_)), []).
Proof.
  assert (concrete [VInt 145] ∅) as Hc.
  { apply has_placeholder_false. reflexivity. }
  assert (∀ b, VArg b ∈ [VArg _0_] → covered [VInt 145] ∅ (index b)) as Hpre.
  { intros b Hb. apply list_elem_of_In in Hb. simpl in Hb.
    destruct Hb as [Hb|[]]. injection Hb as <-. simpl. lia. }
  assert (¬ covered [VInt 145] ∅ (index _2_)) as Hnot.
  { simpl. lia. }
  split; [exact Hc |]. split; [exact Hpre |]. split; [exact Hnot |].
  exact (first_missing_positional_is_reported py_target (Prim "f") [VArg _0_] _2_
           [VArg _1_] (kw [("a"%string, VArg (_kw_ "q"))]) [VInt 145] ∅ []
           Hc Hpre Hnot).
Defined.

(** ** The target is called exactly when every placeholder is supplied *)

(** A deferred callable over a target, called on arguments without
    placeholder, calls the target (once) if and only if the call supplies
    the key of every captured placeholder. *)
Theorem target_called_iff_all_supplied target name orig_args orig_kwargs
    args kwargs h :
  concrete args kwargs →
  ((∃ new_args new_kwargs,
      call target (autopartial (NewF (Prim name) orig_args orig_kwargs))
           args kwargs h =
      (target name new_args new_kwargs h, h ++ [(name, new_args, new_kwargs)])) ↔
   (∀ a, captured a orig_args orig_kwargs → covered args kwargs (index a))).
Proof.
  intros Hc. rewrite call_deferred_concrete by done. split.
  - intros (na & nk & Hcall) a Hcap.
    destruct (resolve_call orig_args orig_kwargs args kwargs) as [r|e] eqn:Hr.
    + by eapply resolve_call_Return_covered.
    + exfalso. injection Hcall as _ Hh.
      apply (f_equal length) in Hh. rewrite length_app in Hh. simpl in Hh. lia.
  - intros Hall.
    destruct (resolve_call_total _ _ _ _ Hall) as (na & nk & ->).
    by exists na, nk.
Qed.

Lemma target_called_iff_all_supplied_witness :
  concrete [VInt 145] ∅ ∧
  ((∃ new_args new_kwargs,
      call py_target (autopartial (NewF (Prim "f") [VArg _0_; VInt 2] ∅))
           [VInt 145] ∅ [] =
      (py_target "f" new_args new_kwargs [], [] ++ [("f"%string, new_args, new_kwargs)])) ↔
   (∀ a, captured a [VArg _0_; VInt 2] ∅ → covered [VInt 145] ∅ (index a))).
Proof.
  assert (concrete [VInt 145] ∅) as Hc.
  { apply has_placeholder_false. reflexivity. }
  split; [exact Hc |].
  exact (target_called_iff_all_supplied py_target "f" [VArg _0_; VInt 2] ∅
           [VInt 145] ∅ [] Hc).
Defined.

(** ** Decorating twice *)

(** A function decorated twice behaves as the function decorated once:
    on a call without placeholder, and on a call (with or without
    placeholder) followed by a call without placeholder. *)
Theorem decorating_twice target f args kwargs args2 kwargs2 h :
  concrete args2 kwargs2 →
  call target (autopartial (autopartial f)) args2 kwargs2 h =
    call target (autopartial f) args2 kwargs2 h ∧
  then_call target (call target (autopartial (autopartial f)) args kwargs h)
    args2 kwargs2 =
  then_call target (call target (autopartial f) args kwargs h) args2 kwargs2.
Proof.
  intros Hc. split; [by apply call_autopartial_concrete |].
  destruct (has_placeholder args kwargs) eqn:Hp.
  - apply has_placeholder_true in Hp.
    rewrite !call_autopartial_placeholder, !then_call_callable by done.
    rewrite !call_deferred_concrete by done.
    destruct (resolve_call args kwargs args2 kwargs2) as [[na nk]|e] eqn:Hr;
      [|done].
    apply call_autopartial_concrete. by eapply resolve_call_concrete.
  - apply has_placeholder_false in Hp.
    by rewrite (call_autopartial_concrete target (autopartial f)).
Qed.

Lemma decorating_twice_witness :
  concrete [VInt 3] ∅ ∧
  call py_target (autopartial (autopartial (Prim "power"))) [VInt 3] ∅ [] =
    call py_target (autopartial (Prim "power")) [VInt 3] ∅ [] ∧
  then_call py_target
    (call py_target (autopartial (autopartial (Prim "power"))) [VArg _0_; VInt 2] ∅ [])
    [VInt 3] ∅ =
  then_call py_target
    (call py_target (autopartial (Prim "power")) [VArg _0_; VInt 2] ∅ [])
    [VInt 3] ∅.
Proof.
  assert (concrete [VInt 3] ∅) as Hc.
  { apply has_placeholder_false. reflexivity. }
  split; [exact Hc |].
  exact (decorating_twice py_target (Prim "power") [VArg _0_; VInt 2] ∅ [VInt 3] ∅ [] Hc).
Defined.

Lemma get_value_of_call_witness :
  get_value (mk_Arg (KInt (Z.of_nat 1))) (all_args_of [VInt 7; VInt 8] ∅) =
    Return (VInt 8) ∧
  get_value (mk_Arg (KInt (-1))) (all_args_of [VInt 7; VInt 8] ∅) =
    Raise (KeyError (KInt (-1))) ∧
  get_value (mk_Arg (KInt 2)) (all_args_of [VInt 7; VInt 8] ∅) =
    Raise (KeyError (KInt 2)).
Proof.
  pose proof (get_value_of_call [VInt 7; VInt 8] ∅) as (H1 & H2 & _).
  split; [exact (H1 1%nat (VInt 8) eq_refl) |].
  split; [apply H2; left; lia | apply H2; right; simpl; lia].
Defined.

(** ** Any number of rounds *)

Lemma call_identity_rounds target n f args h :
  call target (identity_rounds n f (length args)) args ∅ h =
  call target f args ∅ h.
Proof.
  induction n as [|n IH]; simpl identity_rounds; [done |].
  rewrite call_new_f.
  assert (resolve_call (positional_placeholders (length args)) ∅ args ∅ =
          Return (args, ∅)) as ->; [|exact IH].
  apply resolve_call_Return. split.
  - apply resolve_positional_placeholders.
  - reflexivity.
Qed.

(** The rounds of deferral have no limit: a decorated callable called on
    [_0_, ..., _(m-1)_] (with [m > 0]) returns the decorated closure of one
    more round, without a target call; and after any number [n] of such
    rounds, the call on [m] arguments without placeholder is the call of
    the function on these arguments. *)
Theorem any_number_of_rounds target n f args h :
  args ≠ [] →
  concrete args ∅ →
  call target (autopartial (identity_rounds n f (length args)))
       (positional_placeholders (length args)) ∅ h =
    (Return (VFun (autopartial (identity_rounds (S n) f (length args)))), h) ∧
  call target (autopartial (identity_rounds n f (length args))) args ∅ h =
    call target f args ∅ h.
Proof.
  intros Hne Hc. split.
  - apply call_autopartial_placeholder.
    left. destruct args as [|v args]; [done |].
    exists (mk_Arg (KInt 0)). by left.
  - rewrite call_autopartial_concrete by done. apply call_identity_rounds.
Qed.

Lemma any_number_of_rounds_witness :
  [VInt 3; VInt 2] ≠ [] ∧ concrete [VInt 3; VInt 2] ∅ ∧
  call py_target (autopartial (identity_rounds 5 (Prim "power") (length [VInt 3; VInt 2])))
       (positional_placeholders (length [VInt 3; VInt 2])) ∅ [] =
    (Return (VFun (autopartial
       (identity_rounds 6 (Prim "power") (length [VInt 3; VInt 2])))), []) ∧
  call py_target (autopartial (identity_rounds 5 (Prim "power") (length [VInt 3; VInt 2])))
       [VInt 3; VInt 2] ∅ [] =
    call py_target (Prim "power") [VInt 3; VInt 2] ∅ [].
Proof.
  assert ([VInt 3; VInt 2] ≠ []) as Hne by discriminate.
  assert (concrete [VInt 3; VInt 2] ∅) as Hc.
  { apply has_placeholder_false. reflexivity. }
  split; [exact Hne |]. split; [exact Hc |].
  exact (any_number_of_rounds py_target 5 (Prim "power") [VInt 3; VInt 2] [] Hne Hc).
Defined.

(** * The tests of the module *)

(** [class TestAutoPartial], with [f] the decorated function that returns
    its arguments; only the outcome of the last call is compared. *)

Example test_normal_call :
  (call py_target test_f [VInt 1; VInt 2]
     (kw [("a"%string, VInt 3); ("b"%string, VInt 4)]) []).1 =
  Return (VTuple [VTuple [VInt 1; VInt 2];
                  VDict (kw [("a"%string, VInt 3); ("b"%string, VInt 4)])]).
Proof. reflexivity. Qed.

Example test_returns_function :
  (∃ nf1, call py_target test_f [VArg _0_; VInt 2]
            (kw [("a"%string, VInt 3); ("b"%string, VInt 4)]) [] =
          (Return (VFun nf1), [])) ∧
  (∃ nf2, call py_target test_f [VInt 1; VInt 2]
            (kw [("a"%string, VArg _0_); ("b"%string, VInt 4)]) [] =
          (Return (VFun nf2), [])).
Proof. split; eexists; reflexivity. Qed.

Example test_arg_to_arg :
  (then_call py_target
     (call py_target test_f [VInt 1; VArg _0_]
        (kw [("a"%string, VInt 3); ("b"%string, VInt 4)]) [])
     [VInt 145] ∅).1 =
  Return (VTuple [VTuple [VInt 1; VInt 145];
                  VDict (kw [("a"%string, VInt 3); ("b"%string, VInt 4)])]).
Proof. reflexivity. Qed.

Example test_arg_to_kwarg :
  (then_call py_target
     (call py_target test_f [VInt 1; VInt 2]
        (kw [("a"%string, VInt 3); ("b"%string, VArg _0_)]) [])
     [VInt 145] ∅).1 =
  Return (VTuple [VTuple [VInt 1; VInt 2];
                  VDict (kw [("a"%string, VInt 3); ("b"%string, VInt 145)])]).
Proof. reflexivity. Qed.

Example test_kwarg_to_kwarg :
  (then_call py_target
     (call py_target test_f [VInt 1; VInt 2]
        (kw [("a"%string, VInt 3); ("b"%string, VArg (_kw_ "q"))]) [])
     [] (kw [("q"%string, VInt 145)])).1 =
  Return (VTuple [VTuple [VInt 1; VInt 2];
                  VDict (kw [("a"%string, VInt 3); ("b"%string, VInt 145)])]).
Proof. reflexivity. Qed.

Example test_kwarg_to_arg :
  (then_call py_target
     (call py_target test_f [VArg (_kw_ "d"); VInt 2]
        (kw [("a"%string, VInt 3); ("b"%string, VInt 4)]) [])
     [] (kw [("d"%string, VInt 145)])).1 =
  Return (VTuple [VTuple [VInt 145; VInt 2];
                  VDict (kw [("a"%string, VInt 3); ("b"%string, VInt 4)])]).
Proof. reflexivity. Qed.

Example test_multiple_args :
  (then_call py_target
     (call py_target test_f [VArg (_kw_ "s"); VArg _1_; VInt 3]
        (kw [("a"%string, VArg _0_); ("b"%string, VInt 4)]) [])
     [VInt 145; VInt 543] (kw [("s"%string, VInt 444)])).1 =
  Return (VTuple [VTuple [VInt 444; VInt 543; VInt 3];
                  VDict (kw [("a"%string, VInt 145); ("b"%string, VInt 4)])]).
Proof. reflexivity. Qed.

Example test_chain_partials :
  (then_call py_target
     (then_call py_target
        (call py_target test_f [VArg _0_; VInt 2]
           (kw [("a"%string, VArg _1_); ("b"%string, VInt 4)]) [])
        [VArg _0_; VInt 3] ∅)
     [VInt 145] ∅).1 =
  Return (VTuple [VTuple [VInt 145; VInt 2];
                  VDict (kw [("a"%string, VInt 3); ("b"%string, VInt 4)])]).
Proof. reflexivity. Qed.
